(** * Wallet: first-activity locator and recent-activity scanner

    A shallow embedding of [wallet.py].  The program talks to a JSON-RPC
    endpoint; here the endpoint is an oracle [net] that answers the n-th
    HTTP POST of a run, and every function of the program is a computation
    in a small state-and-exception monad whose state is the number of POSTs
    made so far together with the trace of observable events (POSTs, sleeps,
    console lines, progress updates).  The [while] loops take fuel, one unit
    per iteration, and a run that uses it up ends in [Timeout].

    Outside the embedding: the [ratelimit] decorators around [call_api],
    [get_latest_block_number] (the entry point is modelled from its result
    on), and the formatting of console lines, which are kept as structured
    messages. *)

From Stdlib Require Import ZArith List String Ascii Bool Lia Arith Permutation.
Import ListNotations.

Local Open Scope Z_scope.

(* ================================================================== *)
(** ** Strings: [str.lower] and Python truthiness *)

Module Str.

Definition is_upper (c : ascii) : bool :=
  let n := nat_of_ascii c in (65 <=? n)%nat && (n <=? 90)%nat.

(** [str.lower] on one character of an ASCII string, where it changes the
    letters A to Z and nothing else.  Python also folds the cased letters
    outside ASCII, which this function leaves alone: what is proved about
    case is proved of ASCII strings ([is_ascii] below), as addresses,
    hashes and quantities are. *)
Definition lower_char (c : ascii) : ascii :=
  if is_upper c then ascii_of_nat (nat_of_ascii c + 32) else c.

Fixpoint lower (s : string) : string :=
  match s with
  | EmptyString => EmptyString
  | String c s' => String (lower_char c) (lower s')
  end.

(** Every character of the string is an ASCII character. *)
Fixpoint is_ascii (s : string) : bool :=
  match s with
  | EmptyString => true
  | String c s' => (nat_of_ascii c <? 128)%nat && is_ascii s'
  end.

(** Truthiness of a value that is [None] or a [str]: [None] and the empty
    string are falsy. *)
Definition truthy (o : option string) : bool :=
  match o with
  | None => false
  | Some EmptyString => false
  | Some (String _ _) => true
  end.

(** Case-insensitive equality, stated without [lower]: same length, and
    at each position the same character or the two cases of one letter. *)
Definition same_letter (a b : ascii) : Prop :=
  a = b
  \/ (is_upper a = true /\ nat_of_ascii b = (nat_of_ascii a + 32)%nat)
  \/ (is_upper b = true /\ nat_of_ascii a = (nat_of_ascii b + 32)%nat).

Fixpoint eq_nocase (s t : string) : Prop :=
  match s, t with
  | EmptyString, EmptyString => True
  | String a s', String b t' => same_letter a b /\ eq_nocase s' t'
  | _, _ => False
  end.

(** [lower_char] on character codes. *)
Definition code_lower (n : nat) : nat :=
  if ((65 <=? n) && (n <=? 90))%nat then (n + 32)%nat else n.

End Str.

(* ================================================================== *)
(** ** Data model *)

(** A transaction as decoded from a block response.  [tx_to] is [None] for
    the JSON [null] of a contract creation. *)
Record transaction := mkTx {
  tx_hash : string;
  tx_from : string;
  tx_to : option string;
  tx_value : string;
  tx_blockNumber : string
}.

(** One element of the payload built by [get_block_transactions_batch]:
    [{"jsonrpc": "2.0", "id": i, "method": "eth_getBlockByNumber",
      "params": [hex(block_number), True]}].  The block number is kept as
    the integer that [hex] encodes. *)
Record request := mkReq {
  req_id : nat;
  req_method : string;
  req_block : Z;
  req_full : bool
}.

Definition payload := list request.

(** One element of a batch response, as far as the program looks at it. *)
Inductive sub_response :=
| NoResult                                   (* no 'result' key *)
| NullResult                                 (* 'result': null *)
| BlockResult (txs : option (list transaction)).
                                 (* a block; 'transactions' may be missing *)

Definition response := list sub_response.

Inductive exn :=
| RequestError (msg : string)      (* transport, HTTP status or JSON error *)
| TypeError (msg : string).

Inductive message :=
| MsgApiCallFailed (attempt : Z) (e : exn)
| MsgBinarySearchStart
| MsgCheckingRange (start_block mid_block end_block : Z)
| MsgCheckingBatch (batch_start batch_end : Z)
| MsgFoundInRange (batch_start batch_end : Z)
| MsgErrorCheckingBatch (batch_start batch_end : Z) (e : exn)
| MsgUpdatedRange (start_block end_block : Z)
| MsgCheckingBlock (block : Z)
| MsgFoundFirst (block : Z)
| MsgErrorCheckingBlock (block : Z) (e : exn)
| MsgNoTransactionsFound
| MsgSearching (max_transactions end_block start_block : Z)
| MsgFoundCount (n : nat) (batch_start end_block : Z)
| MsgErrorProcessingBatch (batch_start end_block : Z) (e : exn)
| MsgLatestBlock (latest_block : Z)
| MsgFirstTransactionIn (creation_block : Z)
| MsgNoTransactionsForAddress
| MsgWalletCreated (creation_block : Z)
| MsgTotalFound (n : nat)
| MsgMostRecent
| MsgTransaction (sent : bool) (tx : transaction).

Inductive event :=
| EPost (p : payload)
| ESleep (seconds : Z)
| EPrint (m : message)
| EProgress (blocks : Z).

Record state := mkState {
  clock : nat;             (* POSTs made so far *)
  trace : list event       (* events so far, oldest first *)
}.

(* ================================================================== *)
(** ** The monad: state, exceptions, and running out of fuel *)

Inductive outcome (A : Type) :=
| Ret (a : A)
| Raise (e : exn)
| Timeout.

Arguments Ret {A} a.
Arguments Raise {A} e.
Arguments Timeout {A}.

Definition M (A : Type) : Type := state -> outcome A * state.

Definition ret {A} (a : A) : M A := fun st => (Ret a, st).

Definition raise {A} (e : exn) : M A := fun st => (Raise e, st).

Definition timeout {A} : M A := fun st => (Timeout, st).

Definition bind {A B} (m : M A) (k : A -> M B) : M B :=
  fun st =>
    match m st with
    | (Ret a, st') => k a st'
    | (Raise e, st') => (Raise e, st')
    | (Timeout, st') => (Timeout, st')
    end.

(** [try: m except Exception as e: h e]. *)
Definition try_except {A} (m : M A) (h : exn -> M A) : M A :=
  fun st =>
    match m st with
    | (Raise e, st') => h e st'
    | r => r
    end.

Declare Scope monad_scope.
Delimit Scope monad_scope with monad.
Notation "x <- m ;; k" := (bind m (fun x => k))
  (at level 100, m at next level, right associativity) : monad_scope.
Notation "m ;; k" := (bind m (fun _ => k))
  (at level 100, right associativity) : monad_scope.
Local Open Scope monad_scope.

(** The state once an event that is not a POST has happened. *)
Definition after (ev : event) (st : state) : state :=
  mkState (clock st) (trace st ++ [ev]).

(** The state once payload [p] has been POSTed. *)
Definition after_post (p : payload) (st : state) : state :=
  mkState (S (clock st)) (trace st ++ [EPost p]).

Definition emit (ev : event) : M unit :=
  fun st => (Ret tt, after ev st).

Definition print (m : message) : M unit := emit (EPrint m).

Definition sleep (seconds : Z) : M unit := emit (ESleep seconds).

(* ================================================================== *)
(** ** Python helpers *)

Definition BATCH_SIZE : Z := 1000.

Fixpoint range_from (n : nat) (start step : Z) : list Z :=
  match n with
  | O => []
  | S n' => start :: range_from n' (start + step) step
  end.

(** [range(start, stop, step)] for a positive [step]. *)
Definition py_range (start stop step : Z) : list Z :=
  range_from (Z.to_nat ((stop - start + step - 1) / step)) start step.

(** [l[:k]]. *)
Definition slice_to {A} (l : list A) (k : Z) : list A :=
  if k <? 0 then firstn (List.length l - Z.to_nat (- k)) l
  else firstn (Z.to_nat k) l.

Definition len {A} (l : list A) : Z := Z.of_nat (List.length l).

(** The test written out three times in the source:
    [tx['from'].lower() == address.lower() or
     (tx['to'] and tx['to'].lower() == address.lower())]. *)
Definition involves (address : string) (tx : transaction) : bool :=
  (Str.lower (tx_from tx) =? Str.lower address)%string
  || (Str.truthy (tx_to tx)
      && match tx_to tx with
         | Some t => (Str.lower t =? Str.lower address)%string
         | None => false
         end).

(* ================================================================== *)
(** ** The program *)

Section Program.

(** The endpoint: what the n-th POST of the run answers to a payload,
    after [raise_for_status] and [json()]. *)
Variable net : nat -> payload -> exn + response.

Definition post (p : payload) : M response :=
  fun st =>
    match net (clock st) p with
    | inl e => (Raise e, after_post p st)
    | inr r => (Ret r, after_post p st)
    end.

(** The body of [for attempt in ...] in [call_api].  The [try] block either
    returns the decoded response or hands control to the handler; falling
    off the end of the loop would return Python's [None]. *)
Fixpoint call_api_loop (attempts : list Z) (p : payload)
  : M (option response) :=
  match attempts with
  | [] => ret None
  | attempt :: rest =>
      returned <-
        try_except
          (r <- post p;; ret (Some r))
          (fun e =>
             print (MsgApiCallFailed (attempt + 1) e);;
             if attempt =? 2 then raise e
             else (sleep (2 ^ attempt);; ret None));;
      match returned with
      | Some r => ret (Some r)
      | None => call_api_loop rest p
      end
  end.

Definition call_api (p : payload) : M (option response) :=
  call_api_loop (py_range 0 3 1) p.

Fixpoint enumerate_from {A} (i : nat) (l : list A) : list (nat * A) :=
  match l with
  | [] => []
  | x :: l' => (i, x) :: enumerate_from (S i) l'
  end.

Definition payloads_of (block_numbers : list Z) : payload :=
  map (fun '(i, block_number) =>
         mkReq i "eth_getBlockByNumber" block_number true)
      (enumerate_from 0 block_numbers).

(** The body of [for r in response]:
    [if 'result' in r and r['result'] is not None:
       transactions.extend(r['result'].get('transactions', []))]. *)
Definition extend_one (transactions : list transaction) (r : sub_response)
  : list transaction :=
  match r with
  | NoResult => transactions
  | NullResult => transactions
  | BlockResult None => transactions ++ []
  | BlockResult (Some txs) => transactions ++ txs
  end.

Fixpoint extend_all (transactions : list transaction) (rs : response)
  : list transaction :=
  match rs with
  | [] => transactions
  | r :: rs' => extend_all (extend_one transactions r) rs'
  end.

Definition get_block_transactions_batch (block_numbers : list Z)
  : M (list transaction) :=
  resp <- call_api (payloads_of block_numbers);;
  match resp with
  | None => raise (TypeError "'NoneType' object is not iterable")
  | Some rs => ret (extend_all [] rs)
  end.

(** The [for batch_start in range(start_block, mid_block + 1, BATCH_SIZE)]
    loop of the coarse phase.  It yields [Some batch_end] when it leaves by
    [break] (then [found_transaction] is [True] and [end_block] has been set
    to [batch_end]) and [None] when the range is used up. *)
Fixpoint check_batches (address : string) (mid_block : Z)
    (batch_starts : list Z) : M (option Z) :=
  match batch_starts with
  | [] => ret None
  | batch_start :: rest =>
      let batch_end := Z.min (batch_start + BATCH_SIZE) (mid_block + 1) in
      print (MsgCheckingBatch batch_start batch_end);;
      broke <-
        try_except
          (batch_txs <-
             get_block_transactions_batch (py_range batch_start batch_end 1);;
           if existsb (involves address) batch_txs then
             print (MsgFoundInRange batch_start batch_end);;
             ret (Some batch_end)
           else ret None)
          (fun e =>
             print (MsgErrorCheckingBatch batch_start batch_end e);;
             ret None);;
      match broke with
      | Some new_end => ret (Some new_end)
      | None => check_batches address mid_block rest
      end
  end.

(** The [while start_block <= end_block] loop; it yields the final
    [(start_block, end_block)]. *)
Fixpoint coarse_phase (fuel : nat) (address : string)
    (start_block end_block : Z) : M (Z * Z) :=
  if start_block <=? end_block then
    match fuel with
    | O => timeout
    | S fuel' =>
        let mid_block := (start_block + end_block) / 2 in
        print (MsgCheckingRange start_block mid_block end_block);;
        broke <-
          check_batches address mid_block
            (py_range start_block (mid_block + 1) BATCH_SIZE);;
        let '(start_block', end_block') :=
          match broke with
          | Some batch_end => (start_block, batch_end)
          | None => (mid_block + 1, end_block)
          end in
        print (MsgUpdatedRange start_block' end_block');;
        coarse_phase fuel' address start_block' end_block'
    end
  else ret (start_block, end_block).

(** The [for block in range(start_block, end_block + 1)] loop; [Some block]
    is the [return block] inside it. *)
Fixpoint fine_phase (address : string) (blocks : list Z) : M (option Z) :=
  match blocks with
  | [] => ret None
  | block :: rest =>
      print (MsgCheckingBlock block);;
      returned <-
        try_except
          (batch_txs <- get_block_transactions_batch [block];;
           if existsb (involves address) batch_txs then
             print (MsgFoundFirst block);;
             ret (Some block)
           else ret None)
          (fun e => print (MsgErrorCheckingBlock block e);; ret None);;
      match returned with
      | Some b => ret (Some b)
      | None => fine_phase address rest
      end
  end.

Definition binary_search_first_transaction (fuel : nat) (address : string)
    (start_block end_block : Z) : M (option Z) :=
  print MsgBinarySearchStart;;
  final_range <- coarse_phase fuel address start_block end_block;;
  let '(start_block', end_block') := final_range in
  returned <-
    fine_phase address (py_range start_block' (end_block' + 1) 1);;
  match returned with
  | Some block => ret (Some block)
  | None => print MsgNoTransactionsFound;; ret None
  end.

(** The [while] loop of [find_transactions_reverse_chronological]. *)
Fixpoint scan_loop (fuel : nat) (address : string)
    (start_block end_block max_transactions : Z)
    (transactions : list transaction) : M (list transaction) :=
  if (end_block >=? start_block) && (len transactions <? max_transactions)
  then
    match fuel with
    | O => timeout
    | S fuel' =>
        let batch_start := Z.max (end_block - BATCH_SIZE + 1) start_block in
        let block_numbers := py_range batch_start (end_block + 1) 1 in
        transactions' <-
          try_except
            (batch_txs <- get_block_transactions_batch block_numbers;;
             let relevant_txs := filter (involves address) batch_txs in
             let transactions' :=
               transactions
               ++ slice_to relevant_txs
                    (max_transactions - len transactions) in
             match relevant_txs with
             | [] => ret tt
             | _ :: _ =>
                 print (MsgFoundCount (List.length relevant_txs)
                          batch_start end_block)
             end;;
             ret transactions')
            (fun e =>
               print (MsgErrorProcessingBatch batch_start end_block e);;
               sleep 1;;
               ret transactions);;
        emit (EProgress (end_block - batch_start + 1));;
        scan_loop fuel' address start_block (batch_start - 1)
          max_transactions transactions'
    end
  else ret transactions.

Definition find_transactions_reverse_chronological (fuel : nat)
    (address : string) (start_block end_block max_transactions : Z)
  : M (list transaction) :=
  print (MsgSearching max_transactions end_block start_block);;
  scan_loop fuel address start_block end_block max_transactions [].

(** The report shows the fields as they came; the conversion of the value
    to AVAX is a matter of formatting. *)
Definition print_report (transactions : list transaction) (address : string)
    (creation_block : Z) : M unit :=
  match transactions with
  | [] => print MsgNoTransactionsForAddress
  | _ :: _ =>
      print (MsgWalletCreated creation_block);;
      print (MsgTotalFound (List.length transactions));;
      print MsgMostRecent;;
      fold_right
        (fun tx rest =>
           print (MsgTransaction
                    (Str.lower (tx_from tx) =? Str.lower address)%string tx);;
           rest)
        (ret tt) (firstn 5 transactions)
  end.

(** Truthiness of the locator's result: [None] and [0] are falsy. *)
Definition truthy_block (creation_block : option Z) : bool :=
  match creation_block with
  | None => false
  | Some b => negb (b =? 0)
  end.

(** The entry point from [if creation_block:] on. *)
Definition report_from (fuel : nat) (address : string) (latest_block : Z)
    (creation_block : option Z) : M unit :=
  if truthy_block creation_block then
    match creation_block with
    | Some b =>
        print (MsgFirstTransactionIn b);;
        transactions <-
          find_transactions_reverse_chronological fuel address b
            latest_block 100;;
        print_report transactions address b
    | None => ret tt
    end
  else print MsgNoTransactionsForAddress.

(** The entry point once [get_latest_block_number] has returned. *)
Definition main_from (fuel : nat) (address : string) (latest_block : Z)
  : M unit :=
  print (MsgLatestBlock latest_block);;
  creation_block <-
    binary_search_first_transaction fuel address 0 latest_block;;
  report_from fuel address latest_block creation_block.

End Program.

(* ================================================================== *)
(** ** A node serving a fixed chain *)

(** [chain b] is the transaction list of block [b], or [None] when the node
    answers [null] for it.  [fails n] is the error of the n-th POST, if it
    fails.  The node answers the sub-requests in the order submitted. *)
Definition node (chain : Z -> option (list transaction))
    (fails : nat -> option exn) : nat -> payload -> exn + response :=
  fun n p =>
    match fails n with
    | Some e => inl e
    | None =>
        inr (map (fun r =>
                    match chain (req_block r) with
                    | Some txs => BlockResult (Some txs)
                    | None => NullResult
                    end) p)
    end.

Definition no_failures : nat -> option exn := fun _ => None.

Definition block_txs (chain : Z -> option (list transaction)) (b : Z)
  : list transaction :=
  match chain b with
  | Some txs => txs
  | None => []
  end.

Definition st0 : state := mkState 0 [].

(** Every three consecutive POSTs include one that succeeds, so that no
    logical call uses up its attempts. *)
Definition reliable (fails : nat -> option exn) : Prop :=
  forall n, fails n = None \/ fails (S n) = None \/ fails (S (S n)) = None.

(** The first [k] POSTs of the run fail, the later ones succeed. *)
Definition first_fail (k : nat) : nat -> option exn :=
  fun n => if (n <? k)%nat then Some (RequestError "503 Server Error")
           else None.

(** The block numbers requested by the POSTs among some events. *)
Definition posted_blocks (evs : list event) : list Z :=
  flat_map (fun ev =>
              match ev with
              | EPost p => map req_block p
              | _ => []
              end) evs.

(** Between [st] and [st'] the trace only grew, and every block number
    requested in between satisfies [P]. *)
Definition posts_satisfy (P : Z -> Prop) (st st' : state) : Prop :=
  exists evs, trace st' = trace st ++ evs /\ Forall P (posted_blocks evs).

(** The matching transactions of blocks [lo..hi], oldest block first. *)
Definition matching_in (chain : Z -> option (list transaction))
    (address : string) (lo hi : Z) : list transaction :=
  filter (involves address) (flat_map (block_txs chain) (py_range lo (hi + 1) 1)).

(** Block [b] holds a transaction that involves the address. *)
Definition active_at (chain : Z -> option (list transaction))
    (address : string) (b : Z) : Prop :=
  existsb (involves address) (block_txs chain b) = true.


(* ================================================================== *)
(** ** A small chain to run the program on *)

Definition wallet : string := "0xabc".

Definition other_wallet : string := "0xdef".

(** A transfer sent by [wallet], spelled in upper case by the node. *)
Definition transfer : transaction :=
  mkTx "0x01" "0xABC" (Some "0x123"%string) "0xde0b6b3a7640000" "0x0".

(** A contract creation by somebody else. *)
Definition creation : transaction :=
  mkTx "0x02" "0x999" None "0x0" "0x0".

(** A transfer received by [wallet]. *)
Definition second_transfer : transaction :=
  mkTx "0x04" "0x123" (Some "0xabc"%string) "0x1" "0x7".

(** A batch response with a sub-response that has no result, a null result,
    a block without a transaction list and two blocks with transactions. *)
Definition patchy_response : response :=
  [NoResult; BlockResult (Some [transfer; creation]); NullResult;
   BlockResult None; BlockResult (Some [second_transfer])].

(** An endpoint that answers every POST with [patchy_response]. *)
Definition patchy_net : nat -> payload -> exn + response :=
  fun _ _ => inr patchy_response.

(** A chain with transactions in blocks 3 and 7 and no block 5. *)
Definition two_block_chain : Z -> option (list transaction) :=
  fun b =>
    if b =? 3 then Some [transfer; creation]
    else if b =? 7 then Some [second_transfer]
    else if b =? 5 then None
    else Some [].

(** A chain whose only transaction is [transfer], in block [at_block]. *)
Definition only_transfer_at (at_block : Z) : Z -> option (list transaction) :=
  fun b => if b =? at_block then Some [transfer] else Some [].

(* ================================================================== *)
(** ** Reading the trace of a run *)

(** The events that happened between [st] and a later state [st']. *)
Definition events_since (st st' : state) : list event :=
  skipn (List.length (trace st)) (trace st').

(** The payloads POSTed among some events, oldest first. *)
Definition posts_of (evs : list event) : list payload :=
  flat_map (fun ev =>
              match ev with
              | EPost p => [p]
              | _ => []
              end) evs.

(** The seconds slept among some events. *)
Fixpoint slept (evs : list event) : Z :=
  match evs with
  | [] => 0
  | ESleep seconds :: evs' => seconds + slept evs'
  | _ :: evs' => slept evs'
  end.

(** The first of [blocks] that holds a transaction involving the address. *)
Definition first_active (chain : Z -> option (list transaction))
    (address : string) (blocks : list Z) : option Z :=
  find (fun b => existsb (involves address) (block_txs chain b)) blocks.

(** The matching transactions of [lo..hi] in the order in which the scanner
    meets them: batches of up to [BATCH_SIZE] blocks from [hi] downwards,
    and inside a batch the blocks in ascending order.  [n] bounds the
    number of batches. *)
Fixpoint newest_first (n : nat) (chain : Z -> option (list transaction))
    (address : string) (lo hi : Z) : list transaction :=
  match n with
  | O => []
  | S n' =>
      if hi <? lo then []
      else
        let batch_start := Z.max (hi - BATCH_SIZE + 1) lo in
        matching_in chain address batch_start hi
        ++ newest_first n' chain address lo (batch_start - 1)
  end.

(** The POSTs numbered [a] to [b] of the run fail, the others succeed. *)
Definition fail_between (a b : nat) : nat -> option exn :=
  fun n => if ((a <=? n) && (n <=? b))%nat
           then Some (RequestError "502 Bad Gateway")
           else None.

(** Between [st] and [st'] the trace only grew, and every payload POSTed in
    between satisfies [Q]. *)
Definition payloads_satisfy (Q : payload -> Prop) (st st' : state) : Prop :=
  exists evs, trace st' = trace st ++ evs /\ Forall Q (posts_of evs).

(** A payload that asks for the blocks [a], [a + 1], ..., [b - 1], at least
    one and at most [BATCH_SIZE] of them. *)
Definition block_run (p : payload) : Prop :=
  exists a b, a < b <= a + BATCH_SIZE /\ p = payloads_of (py_range a b 1).

(* ================================================================== *)
(** ** The model at work *)

Example range_by_batches :
  py_range 0 2501 BATCH_SIZE = [0; 1000; 2000].
Proof. reflexivity. Qed.

Example range_of_blocks : py_range 4 (Z.min (4 + BATCH_SIZE) (5 + 1)) 1 = [4; 5].
Proof. reflexivity. Qed.

Example lower_address : Str.lower "0xAbCdEF09" = "0xabcdef09"%string.
Proof. reflexivity. Qed.

Example sender_matches_any_case :
  involves wallet transfer = true /\ involves "0XABC" transfer = true.
Proof. split; reflexivity. Qed.

Example recipient_matches : involves "0X123" transfer = true.
Proof. reflexivity. Qed.

Example creation_matches_sender_only :
  involves "0x999" creation = true /\ involves wallet creation = false.
Proof. split; reflexivity. Qed.

(** The one place where "present" is not enough: an empty recipient is
    falsy, so it does not match the empty address. *)
Example empty_recipient_is_falsy :
  involves "" (mkTx "0x03" "0x999" (Some ""%string) "0x0" "0x0") = false.
Proof. reflexivity. Qed.

Example scan_finds_the_transfer :
  fst (find_transactions_reverse_chronological
         (node (only_transfer_at 5) no_failures) 11 wallet 0 10 100 st0)
  = Ret [transfer].
Proof. reflexivity. Qed.

Example scan_with_limit_zero :
  fst (find_transactions_reverse_chronological
         (node (only_transfer_at 5) no_failures) 11 wallet 0 10 0 st0)
  = Ret [].
Proof. reflexivity. Qed.

Example locate_other_wallet :
  fst (binary_search_first_transaction
         (node (only_transfer_at 5) no_failures) 11 other_wallet 0 10 st0)
  = Ret None.
Proof. reflexivity. Qed.

Example locate_wallet_runs_out_of_fuel :
  fst (binary_search_first_transaction
         (node (only_transfer_at 5) no_failures) 200 wallet 0 10 st0)
  = Timeout.
Proof. vm_compute. reflexivity. Qed.

Example report_of_one_transfer :
  trace (snd (print_report [transfer] wallet 5 st0)) =
  [EPrint (MsgWalletCreated 5); EPrint (MsgTotalFound 1);
   EPrint MsgMostRecent; EPrint (MsgTransaction true transfer)].
Proof. reflexivity. Qed.

Example quiet_range_end_to_end :
  fst (binary_search_first_transaction
         (node (only_transfer_at 500) no_failures) 101 wallet 0 100 st0)
  = Ret None
  /\ fst (find_transactions_reverse_chronological
            (node (only_transfer_at 500) no_failures) 101 wallet 0 100 100
            st0) = Ret [].
Proof. split; vm_compute; reflexivity. Qed.

Example main_on_a_quiet_chain :
  fst (main_from (node (only_transfer_at 5) no_failures) 11 other_wallet 10
         st0) = Ret tt.
Proof. reflexivity. Qed.

(* ================================================================== *)
(** ** Case-insensitive comparison *)

Module StrFacts.
Import Str.

Lemma nat_of_lower_char : forall c,
  nat_of_ascii (lower_char c) = code_lower (nat_of_ascii c).
Proof.
  intros c. unfold lower_char, code_lower, is_upper. cbv zeta.
  destruct ((65 <=? nat_of_ascii c) && (nat_of_ascii c <=? 90))%nat eqn:E;
    [|reflexivity].
  apply andb_true_iff in E. destruct E as [_ E]. apply Nat.leb_le in E.
  apply nat_ascii_embedding. lia.
Qed.

Lemma nat_of_ascii_inj : forall a b,
  nat_of_ascii a = nat_of_ascii b -> a = b.
Proof.
  intros a b H. rewrite <- (ascii_nat_embedding a), <- (ascii_nat_embedding b).
  now rewrite H.
Qed.

Lemma lower_char_same_letter : forall a b,
  lower_char a = lower_char b <-> same_letter a b.
Proof.
  intros a b. unfold same_letter. split.
  - intros H. apply (f_equal nat_of_ascii) in H.
    rewrite !nat_of_lower_char in H. unfold code_lower, is_upper in *.
    cbv zeta.
    destruct ((65 <=? nat_of_ascii a) && (nat_of_ascii a <=? 90))%nat eqn:Ea;
    destruct ((65 <=? nat_of_ascii b) && (nat_of_ascii b <=? 90))%nat eqn:Eb;
    rewrite ?andb_true_iff, ?andb_false_iff, ?Nat.leb_le, ?Nat.leb_gt in *.
    + left. apply nat_of_ascii_inj. lia.
    + right; left. split; [reflexivity | lia].
    + right; right. split; [reflexivity | lia].
    + left. apply nat_of_ascii_inj. lia.
  - intros [H | [[Hu H] | [Hu H]]].
    + now subst.
    + apply nat_of_ascii_inj. rewrite !nat_of_lower_char.
      unfold code_lower, is_upper in *. cbv zeta in Hu. rewrite Hu, H.
      apply andb_true_iff in Hu. rewrite !Nat.leb_le in Hu.
      destruct ((65 <=? nat_of_ascii a + 32) && (nat_of_ascii a + 32 <=? 90))%nat eqn:E;
        [|reflexivity].
      apply andb_true_iff in E. rewrite !Nat.leb_le in E. lia.
    + apply nat_of_ascii_inj. rewrite !nat_of_lower_char.
      unfold code_lower, is_upper in *. cbv zeta in Hu. rewrite Hu, H.
      apply andb_true_iff in Hu. rewrite !Nat.leb_le in Hu.
      destruct ((65 <=? nat_of_ascii b + 32) && (nat_of_ascii b + 32 <=? 90))%nat eqn:E;
        [|reflexivity].
      apply andb_true_iff in E. rewrite !Nat.leb_le in E. lia.
Qed.

Lemma lower_eq_nocase : forall s t, lower s = lower t <-> eq_nocase s t.
Proof.
  induction s as [|a s IH]; destruct t as [|b t]; simpl;
    try (split; [discriminate | contradiction]).
  - tauto.
  - rewrite <- IH, <- lower_char_same_letter. split.
    + intros H. now inversion H.
    + intros [-> ->]. reflexivity.
Qed.

Lemma lower_eqb_nocase : forall s t,
  (lower s =? lower t)%string = true <-> eq_nocase s t.
Proof. intros. rewrite String.eqb_eq. apply lower_eq_nocase. Qed.

Lemma same_letter_ascii : forall a b,
  (nat_of_ascii a <? 128)%nat = true -> same_letter a b ->
  (nat_of_ascii b <? 128)%nat = true.
Proof.
  intros a b Ha H. apply Nat.ltb_lt in Ha. apply Nat.ltb_lt.
  unfold same_letter, is_upper in H. cbv zeta in H.
  destruct H as [<- | [[Hu H] | [Hu H]]]; [exact Ha | |];
    apply andb_true_iff in Hu; rewrite !Nat.leb_le in Hu; lia.
Qed.

(** A string that equals an ASCII string up to case is an ASCII string. *)
Lemma eq_nocase_is_ascii : forall s t,
  is_ascii s = true -> eq_nocase s t -> is_ascii t = true.
Proof.
  induction s as [|a s IH]; destruct t as [|b t]; cbn;
    try contradiction; try reflexivity.
  rewrite !andb_true_iff. intros [Ha Hs] [Hab Hst]. split.
  - exact (same_letter_ascii a b Ha Hab).
  - exact (IH t Hs Hst).
Qed.

End StrFacts.

(** What the test computes, for any address: the recipient side needs a
    recipient that is present and not the empty string. *)
Lemma involves_exact : forall address tx,
  involves address tx = true <->
  Str.eq_nocase (tx_from tx) address
  \/ exists t, tx_to tx = Some t /\ t <> ""%string /\ Str.eq_nocase t address.
Proof.
  intros address tx. unfold involves.
  rewrite orb_true_iff, andb_true_iff, StrFacts.lower_eqb_nocase.
  split.
  - intros [H | [Ht H]]; [now left | right].
    destruct (tx_to tx) as [t|]; [|discriminate].
    exists t. repeat split.
    + intros ->. discriminate.
    + now apply StrFacts.lower_eqb_nocase.
  - intros [H | [t [Ht [Hne H]]]]; [now left | right].
    rewrite Ht. split.
    + destruct t; [contradiction | reflexivity].
    + now apply StrFacts.lower_eqb_nocase.
Qed.

(** C4.  The test [involves], used by the locator (both phases) and by the
    scanner, holds exactly when the sender equals the address up to case, or
    the recipient is present and equals the address up to case; a
    transaction whose recipient is absent can only match through its
    sender; and two spellings of an address that differ only in case match
    the same transactions.  Addresses are ASCII identifiers of a fixed
    positive length: the address is taken to be non-empty, and the address,
    the sender and the recipient to be ASCII strings, on which [Str.lower]
    is Python's [lower]. *)
Theorem involves_iff_from_or_to_nocase :
  forall (address : string) (tx : transaction),
    address <> ""%string ->
    Str.is_ascii address = true ->
    Str.is_ascii (tx_from tx) = true ->
    (forall t, tx_to tx = Some t -> Str.is_ascii t = true) ->
    (involves address tx = true <->
       Str.eq_nocase (tx_from tx) address
       \/ exists t, tx_to tx = Some t /\ Str.eq_nocase t address)
    /\ (tx_to tx = None ->
        (involves address tx = true <-> Str.eq_nocase (tx_from tx) address))
    /\ (forall address',
          Str.eq_nocase address address' ->
          Str.is_ascii address' = true
          /\ involves address' tx = involves address tx).
Proof.
  intros address tx Hne Haddr Hfrom Hto. split; [|split].
  - rewrite involves_exact. split.
    + intros [H | [t [Ht [_ H]]]]; [now left | right; eauto].
    + intros [H | [t [Ht H]]]; [now left | right].
      exists t. repeat split; trivial.
      intros ->. apply Hne. destruct address; [reflexivity | contradiction].
  - intros Hnone. rewrite involves_exact. split.
    + intros [H | [t [Ht _]]]; [exact H | congruence].
    + now left.
  - intros address' H. split.
    + exact (StrFacts.eq_nocase_is_ascii address address' Haddr H).
    + unfold involves. apply StrFacts.lower_eq_nocase in H. now rewrite H.
Qed.

Lemma involves_iff_from_or_to_nocase_witness :
  (involves wallet transfer = true <->
     Str.eq_nocase (tx_from transfer) wallet
     \/ exists t, tx_to transfer = Some t /\ Str.eq_nocase t wallet)
  /\ (tx_to transfer = None ->
      (involves wallet transfer = true <->
         Str.eq_nocase (tx_from transfer) wallet))
  /\ (forall address',
        Str.eq_nocase wallet address' ->
        Str.is_ascii address' = true
        /\ involves address' transfer = involves wallet transfer).
Proof.
  apply (involves_iff_from_or_to_nocase wallet transfer).
  - unfold wallet. discriminate.
  - reflexivity.
  - reflexivity.
  - intros t Ht. inversion Ht. reflexivity.
Defined.

(* ================================================================== *)
(** ** The retrying client *)

Section Client.

Variable net : nat -> payload -> exn + response.

(** What one logical call does, by the outcome of each POST. *)
Lemma call_api_run : forall p st,
  call_api net p st =
  let st1 := after_post p st in
  match net (clock st) p with
  | inr r => (Ret (Some r), st1)
  | inl e1 =>
      let st2 :=
        after_post p
          (after (ESleep 1) (after (EPrint (MsgApiCallFailed 1 e1)) st1)) in
      match net (S (clock st)) p with
      | inr r => (Ret (Some r), st2)
      | inl e2 =>
          let st3 :=
            after_post p
              (after (ESleep 2)
                 (after (EPrint (MsgApiCallFailed 2 e2)) st2)) in
          match net (S (S (clock st))) p with
          | inr r => (Ret (Some r), st3)
          | inl e3 => (Raise e3, after (EPrint (MsgApiCallFailed 3 e3)) st3)
          end
      end
  end.
Proof.
  intros p st. unfold call_api.
  change (py_range 0 3 1) with [0; 1; 2]%Z.
  cbn [call_api_loop].
  unfold bind, try_except, post, print, sleep, emit, ret, raise.
  destruct (net (clock st) p) as [e1|r1]; cbn; [|reflexivity].
  destruct (net (S (clock st)) p) as [e2|r2]; cbn; [|reflexivity].
  destruct (net (S (S (clock st))) p) as [e3|r3]; cbn; reflexivity.
Qed.

End Client.

(** C5.  One logical call POSTs at most three times.  If the first two
    POSTs fail and the third succeeds, [call_api] returns the third answer
    and raises nothing, having slept 1 second after the first failure and
    2 seconds after the second.  If all three POSTs fail it raises the
    error of the third, after the same two sleeps and without a further
    sleep. *)
Theorem call_api_three_attempts_backoff :
  forall (net : nat -> payload -> exn + response) (p : payload) (st : state),
    (clock (snd (call_api net p st)) <= clock st + 3)%nat
    /\ (forall e1 e2 r,
          net (clock st) p = inl e1 ->
          net (S (clock st)) p = inl e2 ->
          net (S (S (clock st))) p = inr r ->
          call_api net p st =
          (Ret (Some r),
           mkState (clock st + 3)
             (trace st ++
                [EPost p; EPrint (MsgApiCallFailed 1 e1); ESleep 1;
                 EPost p; EPrint (MsgApiCallFailed 2 e2); ESleep 2;
                 EPost p])))
    /\ (forall e1 e2 e3,
          net (clock st) p = inl e1 ->
          net (S (clock st)) p = inl e2 ->
          net (S (S (clock st))) p = inl e3 ->
          call_api net p st =
          (Raise e3,
           mkState (clock st + 3)
             (trace st ++
                [EPost p; EPrint (MsgApiCallFailed 1 e1); ESleep 1;
                 EPost p; EPrint (MsgApiCallFailed 2 e2); ESleep 2;
                 EPost p; EPrint (MsgApiCallFailed 3 e3)]))).
Proof.
  intros net p st. rewrite call_api_run. cbv zeta. split; [|split].
  - destruct (net (clock st) p); [|cbn; lia].
    destruct (net (S (clock st)) p); [|cbn; lia].
    destruct (net (S (S (clock st))) p); cbn; lia.
  - intros e1 e2 r -> -> ->. unfold after_post, after. cbn.
    repeat rewrite <- app_assoc. cbn. repeat f_equal. lia.
  - intros e1 e2 e3 -> -> ->. unfold after_post, after. cbn.
    repeat rewrite <- app_assoc. cbn. repeat f_equal. lia.
Qed.

Lemma call_api_three_attempts_backoff_witness :
  call_api (node (fun _ => Some []) (first_fail 2)) (payloads_of [7%Z]) st0 =
  (Ret (Some [BlockResult (Some [])]),
   mkState (0 + 3)
     (trace st0 ++
        [EPost (payloads_of [7%Z]);
         EPrint (MsgApiCallFailed 1 (RequestError "503 Server Error"));
         ESleep 1;
         EPost (payloads_of [7%Z]);
         EPrint (MsgApiCallFailed 2 (RequestError "503 Server Error"));
         ESleep 2;
         EPost (payloads_of [7%Z])]))
  /\ call_api (node (fun _ => Some []) (first_fail 3)) (payloads_of [7%Z]) st0 =
     (Raise (RequestError "503 Server Error"),
      mkState (0 + 3)
        (trace st0 ++
           [EPost (payloads_of [7%Z]);
            EPrint (MsgApiCallFailed 1 (RequestError "503 Server Error"));
            ESleep 1;
            EPost (payloads_of [7%Z]);
            EPrint (MsgApiCallFailed 2 (RequestError "503 Server Error"));
            ESleep 2;
            EPost (payloads_of [7%Z]);
            EPrint (MsgApiCallFailed 3 (RequestError "503 Server Error"))])).
Proof.
  split.
  - apply (proj1 (proj2 (call_api_three_attempts_backoff
                           (node (fun _ => Some []) (first_fail 2))
                           (payloads_of [7%Z]) st0))); reflexivity.
  - apply (proj2 (proj2 (call_api_three_attempts_backoff
                           (node (fun _ => Some []) (first_fail 3))
                           (payloads_of [7%Z]) st0))); reflexivity.
Defined.

(* ================================================================== *)
(** ** Traces *)

Lemma posted_blocks_app : forall evs1 evs2,
  posted_blocks (evs1 ++ evs2) = posted_blocks evs1 ++ posted_blocks evs2.
Proof. intros. unfold posted_blocks. apply flat_map_app. Qed.

Lemma posts_satisfy_refl : forall P st, posts_satisfy P st st.
Proof.
  intros P st. exists []. split; [now rewrite app_nil_r | constructor].
Qed.

Lemma posts_satisfy_trans : forall P st1 st2 st3,
  posts_satisfy P st1 st2 -> posts_satisfy P st2 st3 ->
  posts_satisfy P st1 st3.
Proof.
  intros P st1 st2 st3 [evs1 [E1 F1]] [evs2 [E2 F2]].
  exists (evs1 ++ evs2). split.
  - now rewrite E2, E1, app_assoc.
  - rewrite posted_blocks_app. now apply Forall_app.
Qed.

Lemma posts_satisfy_mono : forall (P Q : Z -> Prop) st st',
  (forall b, P b -> Q b) -> posts_satisfy P st st' -> posts_satisfy Q st st'.
Proof.
  intros P Q st st' HPQ [evs [E F]]. exists evs. split; [exact E|].
  eapply Forall_impl; eauto.
Qed.

Lemma posts_satisfy_after : forall P ev st,
  posted_blocks [ev] = [] -> posts_satisfy P st (after ev st).
Proof.
  intros P ev st H. exists [ev]. split; [reflexivity|].
  rewrite H. constructor.
Qed.

Lemma posts_satisfy_after_post : forall P p st,
  Forall P (map req_block p) -> posts_satisfy P st (after_post p st).
Proof.
  intros P p st H. exists [EPost p]. split; [reflexivity|].
  cbn. now rewrite app_nil_r.
Qed.

Ltac trace_step :=
  repeat first
    [ apply posts_satisfy_refl
    | (eapply posts_satisfy_trans;
       [| apply posts_satisfy_after; reflexivity])
    | (eapply posts_satisfy_trans;
       [| apply posts_satisfy_after_post; eassumption]) ].

(* ================================================================== *)
(** ** Fetching a batch of blocks *)

Lemma enumerate_from_snd : forall (A : Type) (l : list A) i,
  map snd (enumerate_from i l) = l.
Proof.
  induction l as [|x l IH]; intros i; cbn; [reflexivity|].
  now rewrite IH.
Qed.

Lemma payloads_of_blocks : forall block_numbers,
  map req_block (payloads_of block_numbers) = block_numbers.
Proof.
  intros. unfold payloads_of. rewrite map_map.
  rewrite <- (enumerate_from_snd Z block_numbers 0) at 2.
  apply map_ext. now intros [i b].
Qed.

Lemma payloads_of_ids : forall block_numbers,
  map req_id (payloads_of block_numbers) = seq 0 (List.length block_numbers).
Proof.
  intros. unfold payloads_of. rewrite map_map. generalize 0%nat.
  induction block_numbers as [|b l IH]; intros i; cbn; [reflexivity|].
  now rewrite IH.
Qed.

Lemma extend_all_flat_map : forall rs transactions,
  extend_all transactions rs = transactions ++ flat_map (extend_one []) rs.
Proof.
  induction rs as [|r rs IH]; intros acc; cbn.
  - now rewrite app_nil_r.
  - rewrite IH. destruct r as [| |[txs|]]; cbn;
      rewrite ?app_nil_r, <- ?app_assoc; reflexivity.
Qed.

Section Fetch.

Variable net : nat -> payload -> exn + response.

Lemma call_api_cases : forall (P : Z -> Prop) p st,
  Forall P (map req_block p) ->
  exists st',
    posts_satisfy P st st'
    /\ ((exists n r, net n p = inr r
                     /\ call_api net p st = (Ret (Some r), st'))
        \/ (exists e1 e2 e3,
              net (clock st) p = inl e1
              /\ net (S (clock st)) p = inl e2
              /\ net (S (S (clock st))) p = inl e3
              /\ call_api net p st = (Raise e3, st'))).
Proof.
  intros P p st HP. rewrite call_api_run. cbv zeta.
  destruct (net (clock st) p) as [e1|r1] eqn:E1.
  2:{ eexists. split; [|left; eauto]. trace_step. }
  destruct (net (S (clock st)) p) as [e2|r2] eqn:E2.
  2:{ eexists. split; [|left; eauto]. trace_step. }
  destruct (net (S (S (clock st))) p) as [e3|r3] eqn:E3.
  2:{ eexists. split; [|left; eauto]. trace_step. }
  eexists. split; [|right; eauto 10]. trace_step.
Qed.

Lemma get_block_transactions_batch_cases : forall (P : Z -> Prop) blocks st,
  Forall P blocks ->
  exists st',
    posts_satisfy P st st'
    /\ ((exists n rs,
           net n (payloads_of blocks) = inr rs
           /\ get_block_transactions_batch net blocks st =
              (Ret (extend_all [] rs), st'))
        \/ (exists e1 e2 e3,
              net (clock st) (payloads_of blocks) = inl e1
              /\ net (S (clock st)) (payloads_of blocks) = inl e2
              /\ net (S (S (clock st))) (payloads_of blocks) = inl e3
              /\ get_block_transactions_batch net blocks st =
                 (Raise e3, st'))).
Proof.
  intros P blocks st HP.
  rewrite <- payloads_of_blocks in HP.
  destruct (call_api_cases P _ st HP) as [st' [Hps [H | H]]].
  - destruct H as [n [rs [Hn Hc]]]. exists st'. split; [exact Hps|].
    left. exists n, rs. split; [exact Hn|].
    unfold get_block_transactions_batch, bind. now rewrite Hc.
  - destruct H as [e1 [e2 [e3 [H1 [H2 [H3 Hc]]]]]]. exists st'.
    split; [exact Hps|]. right. exists e1, e2, e3. repeat split; trivial.
    unfold get_block_transactions_batch, bind. now rewrite Hc.
Qed.

End Fetch.

Section NodeFetch.

Variable chain : Z -> option (list transaction).
Variable fails : nat -> option exn.

Lemma node_answer : forall n blocks rs,
  node chain fails n (payloads_of blocks) = inr rs ->
  extend_all [] rs = flat_map (block_txs chain) blocks.
Proof.
  intros n blocks rs H. unfold node in H.
  destruct (fails n); [discriminate|]. inversion H; subst; clear H.
  rewrite extend_all_flat_map. cbn.
  rewrite <- (payloads_of_blocks blocks) at 2.
  induction (payloads_of blocks) as [|r l IH]; cbn; [reflexivity|].
  rewrite IH. f_equal. unfold block_txs.
  destruct (chain (req_block r)); reflexivity.
Qed.

(** A fetch from the node yields the transactions of the requested blocks,
    in the order requested, or raises. *)
Lemma node_fetch_cases : forall (P : Z -> Prop) blocks st,
  Forall P blocks ->
  exists st',
    posts_satisfy P st st'
    /\ (get_block_transactions_batch (node chain fails) blocks st =
        (Ret (flat_map (block_txs chain) blocks), st')
        \/ exists e,
             get_block_transactions_batch (node chain fails) blocks st =
             (Raise e, st')).
Proof.
  intros P blocks st HP.
  destruct (get_block_transactions_batch_cases (node chain fails) P blocks
              st HP) as [st' [Hps [H | H]]]; exists st'; (split; [exact Hps|]).
  - destruct H as [n [rs [Hn Hc]]]. left.
    now rewrite Hc, (node_answer n blocks rs Hn).
  - destruct H as [e1 [e2 [e3 [_ [_ [_ Hc]]]]]]. right. eauto.
Qed.

Lemma node_fetch_reliable : forall (P : Z -> Prop) blocks st,
  reliable fails ->
  Forall P blocks ->
  exists st',
    posts_satisfy P st st'
    /\ get_block_transactions_batch (node chain fails) blocks st =
       (Ret (flat_map (block_txs chain) blocks), st').
Proof.
  intros P blocks st Hrel HP.
  destruct (get_block_transactions_batch_cases (node chain fails) P blocks
              st HP) as [st' [Hps [H | H]]]; exists st'; (split; [exact Hps|]).
  - destruct H as [n [rs [Hn Hc]]].
    now rewrite Hc, (node_answer n blocks rs Hn).
  - destruct H as [e1 [e2 [e3 [H1 [H2 [H3 _]]]]]]. exfalso.
    unfold node in H1, H2, H3.
    destruct (Hrel (clock st)) as [F | [F | F]]; rewrite F in *; discriminate.
Qed.

End NodeFetch.

Lemma no_failures_reliable : reliable no_failures.
Proof. intros n. now left. Qed.

(** C7.  When the batch call returns a response, the fetch raises nothing
    and returns what the loop over the sub-responses collects: a
    sub-response without a result, or with a null result, contributes
    nothing, a block contributes its whole transaction list as it stands,
    and the contributions are laid out in the order of the sub-responses;
    a node that answers in the order submitted thus yields the transactions
    of the requested blocks in that order. *)
Theorem fetch_collects_blocks_in_order :
  (forall (net : nat -> payload -> exn + response) blocks st rs st',
      call_api net (payloads_of blocks) st = (Ret (Some rs), st') ->
      get_block_transactions_batch net blocks st =
      (Ret (extend_all [] rs), st'))
  /\ (forall rs1 r rs2,
        extend_all [] (rs1 ++ r :: rs2) =
        extend_all [] rs1
        ++ match r with
           | NoResult => []
           | NullResult => []
           | BlockResult None => []
           | BlockResult (Some txs) => txs
           end
        ++ extend_all [] rs2)
  /\ (forall chain blocks st,
        get_block_transactions_batch (node chain no_failures) blocks st =
        (Ret (flat_map (block_txs chain) blocks),
         after_post (payloads_of blocks) st)).
Proof.
  split; [|split].
  - intros net blocks st rs st' H.
    unfold get_block_transactions_batch, bind. now rewrite H.
  - intros rs1 r rs2. rewrite !extend_all_flat_map. cbn.
    rewrite flat_map_app. cbn. destruct r as [| |[txs|]]; reflexivity.
  - intros chain blocks st.
    unfold get_block_transactions_batch, bind. rewrite call_api_run.
    cbv zeta. unfold node at 1, no_failures at 1.
    unfold ret. f_equal.
    f_equal. apply (node_answer chain no_failures 0). reflexivity.
Qed.

Lemma fetch_collects_blocks_in_order_witness :
  get_block_transactions_batch patchy_net [1; 2; 3; 4; 5] st0 =
  (Ret [transfer; creation; second_transfer],
   after_post (payloads_of [1; 2; 3; 4; 5]) st0)
  /\ extend_all []
       ([NoResult; BlockResult (Some [transfer; creation])]
        ++ NullResult :: [BlockResult None;
                          BlockResult (Some [second_transfer])])
     = [transfer; creation] ++ [] ++ [second_transfer]
  /\ get_block_transactions_batch (node two_block_chain no_failures)
       [7; 5; 3] st0 =
     (Ret [second_transfer; transfer; creation],
      after_post (payloads_of [7; 5; 3]) st0).
Proof.
  split; [|split].
  - exact (proj1 fetch_collects_blocks_in_order patchy_net [1; 2; 3; 4; 5]
             st0 patchy_response
             (after_post (payloads_of [1; 2; 3; 4; 5]) st0) eq_refl).
  - exact (proj1 (proj2 fetch_collects_blocks_in_order)
             [NoResult; BlockResult (Some [transfer; creation])]
             NullResult
             [BlockResult None; BlockResult (Some [second_transfer])]).
  - exact (proj2 (proj2 fetch_collects_blocks_in_order) two_block_chain
             [7; 5; 3] st0).
Defined.

(* ================================================================== *)
(** ** [range] *)

Lemma range_from_In : forall n a step x,
  In x (range_from n a step) <->
  exists k, (k < n)%nat /\ x = a + Z.of_nat k * step.
Proof.
  induction n as [|n IH]; intros a step x; cbn.
  - split; [contradiction | intros [k [H _]]; lia].
  - rewrite IH. split.
    + intros [H | [k [Hk H]]].
      * exists 0%nat. split; lia.
      * exists (S k). split; lia.
    + intros [[|k] [Hk H]].
      * left. lia.
      * right. exists k. split; lia.
Qed.

Lemma range_from_app : forall n m a step,
  range_from (n + m) a step =
  range_from n a step ++ range_from m (a + Z.of_nat n * step) step.
Proof.
  induction n as [|n IH]; intros m a step.
  - cbn. f_equal. lia.
  - cbn [Nat.add range_from app]. rewrite IH. do 3 f_equal. lia.
Qed.

Lemma py_range_unit : forall a b,
  py_range a b 1 = range_from (Z.to_nat (b - a)) a 1.
Proof.
  intros. unfold py_range. f_equal. f_equal. rewrite Z.div_1_r. lia.
Qed.

Lemma py_range_unit_In : forall a b x,
  In x (py_range a b 1) <-> a <= x < b.
Proof.
  intros. rewrite py_range_unit, range_from_In. split.
  - intros [k [Hk ->]]. lia.
  - intros H. exists (Z.to_nat (x - a)). split; lia.
Qed.

Lemma py_range_empty : forall a b, b <= a -> py_range a b 1 = [].
Proof.
  intros a b H. rewrite py_range_unit.
  replace (Z.to_nat (b - a)) with 0%nat by lia. reflexivity.
Qed.

Lemma py_range_split : forall a m b,
  a <= m <= b -> py_range a b 1 = py_range a m 1 ++ py_range m b 1.
Proof.
  intros a m b H. rewrite !py_range_unit.
  replace (Z.to_nat (b - a)) with (Z.to_nat (m - a) + Z.to_nat (b - m))%nat
    by lia.
  rewrite range_from_app. do 2 f_equal. lia.
Qed.

Lemma py_range_step_In : forall a b step x,
  0 < step -> In x (py_range a b step) -> a <= x < b.
Proof.
  intros a b step x Hs H. unfold py_range in H.
  apply range_from_In in H. destruct H as [k [Hk ->]].
  assert (Hq : Z.of_nat k < (b - a + step - 1) / step) by lia.
  assert (Hq' : Z.of_nat k + 1 <= (b - a + step - 1) / step) by lia.
  pose proof (Z.mul_div_le (b - a + step - 1) step Hs) as Hm.
  split; nia.
Qed.

Lemma py_range_step_cover : forall a b step x,
  0 < step -> a <= x < b ->
  exists s, In s (py_range a b step) /\ s <= x < s + step.
Proof.
  intros a b step x Hs H.
  exists (a + Z.of_nat (Z.to_nat ((x - a) / step)) * step).
  assert (Hq : 0 <= (x - a) / step) by (apply Z.div_pos; lia).
  pose proof (Z.mul_div_le (x - a) step Hs) as Hm.
  pose proof (Z.mul_succ_div_gt (x - a) step Hs) as Hg.
  split.
  - unfold py_range. apply range_from_In. eexists. split; [|reflexivity].
    apply Z2Nat.inj_lt; [lia| |].
    + apply Z.div_pos; lia.
    + apply Z.div_lt_upper_bound; [lia|].
      apply Z.lt_le_trans with (x - a + 1); [lia|].
      pose proof (Z.mul_succ_div_gt (b - a + step - 1) step Hs). nia.
  - rewrite Z2Nat.id by lia. nia.
Qed.

Lemma existsb_flat_map : forall (A B : Type) (f : B -> bool) (g : A -> list B)
    (l : list A),
  existsb f (flat_map g l) = true <->
  exists a, In a l /\ existsb f (g a) = true.
Proof.
  intros A B f g l. induction l as [|a l IH]; cbn.
  - split; [discriminate | intros [a [[] _]]].
  - rewrite existsb_app, orb_true_iff, IH. split.
    + intros [H | [a' [Hin H]]]; eauto.
    + intros [a' [[<- | Hin] H]]; eauto.
Qed.

(* ================================================================== *)
(** ** The locator, one step at a time *)

Section Locator.

Variable net : nat -> payload -> exn + response.
Variable address : string.

Lemma check_batches_cons : forall mid_block batch_start rest st,
  check_batches net address mid_block (batch_start :: rest) st =
  let batch_end := Z.min (batch_start + BATCH_SIZE) (mid_block + 1) in
  match get_block_transactions_batch net (py_range batch_start batch_end 1)
          (after (EPrint (MsgCheckingBatch batch_start batch_end)) st) with
  | (Ret batch_txs, st1) =>
      if existsb (involves address) batch_txs
      then (Ret (Some batch_end),
            after (EPrint (MsgFoundInRange batch_start batch_end)) st1)
      else check_batches net address mid_block rest st1
  | (Raise e, st1) =>
      check_batches net address mid_block rest
        (after (EPrint (MsgErrorCheckingBatch batch_start batch_end e)) st1)
  | (Timeout, st1) => (Timeout, st1)
  end.
Proof.
  intros. cbn [check_batches]. cbv zeta.
  unfold bind, try_except, print, emit, ret.
  destruct (get_block_transactions_batch net _ _) as [[txs|e|] st1];
    [destruct (existsb (involves address) txs)| |]; reflexivity.
Qed.

Lemma fine_phase_cons : forall block rest st,
  fine_phase net address (block :: rest) st =
  match get_block_transactions_batch net [block]
          (after (EPrint (MsgCheckingBlock block)) st) with
  | (Ret batch_txs, st1) =>
      if existsb (involves address) batch_txs
      then (Ret (Some block), after (EPrint (MsgFoundFirst block)) st1)
      else fine_phase net address rest st1
  | (Raise e, st1) =>
      fine_phase net address rest
        (after (EPrint (MsgErrorCheckingBlock block e)) st1)
  | (Timeout, st1) => (Timeout, st1)
  end.
Proof.
  intros. cbn [fine_phase].
  unfold bind, try_except, print, emit, ret.
  destruct (get_block_transactions_batch net _ _) as [[txs|e|] st1];
    [destruct (existsb (involves address) txs)| |]; reflexivity.
Qed.

Lemma coarse_phase_done : forall fuel start_block end_block st,
  end_block < start_block ->
  coarse_phase net fuel address start_block end_block st =
  (Ret (start_block, end_block), st).
Proof.
  intros fuel s e st H.
  destruct fuel; cbn [coarse_phase];
    (destruct (s <=? e) eqn:E; [apply Z.leb_le in E; lia | reflexivity]).
Qed.

Lemma coarse_phase_step : forall fuel start_block end_block st,
  start_block <= end_block ->
  coarse_phase net (S fuel) address start_block end_block st =
  let mid_block := (start_block + end_block) / 2 in
  match check_batches net address mid_block
          (py_range start_block (mid_block + 1) BATCH_SIZE)
          (after (EPrint (MsgCheckingRange start_block mid_block end_block))
             st) with
  | (Ret (Some batch_end), st1) =>
      coarse_phase net fuel address start_block batch_end
        (after (EPrint (MsgUpdatedRange start_block batch_end)) st1)
  | (Ret None, st1) =>
      coarse_phase net fuel address (mid_block + 1) end_block
        (after (EPrint (MsgUpdatedRange (mid_block + 1) end_block)) st1)
  | (Raise e, st1) => (Raise e, st1)
  | (Timeout, st1) => (Timeout, st1)
  end.
Proof.
  intros fuel s e st H. cbn [coarse_phase].
  apply Z.leb_le in H. rewrite H. cbv zeta.
  unfold bind, print, emit.
  destruct (check_batches net address _ _ _) as [[[be|]|e0|] st1];
    reflexivity.
Qed.

Lemma coarse_phase_out_of_fuel : forall start_block end_block st,
  start_block <= end_block ->
  coarse_phase net 0 address start_block end_block st = (Timeout, st).
Proof.
  intros s e st H. cbn [coarse_phase]. apply Z.leb_le in H. now rewrite H.
Qed.

(** The batch loop ends normally: by [break] at one of its batches, or by
    using up the range. *)
Lemma check_batches_returns : forall mid_block batch_starts st,
  exists st',
    check_batches net address mid_block batch_starts st = (Ret None, st')
    \/ exists batch_start,
         In batch_start batch_starts
         /\ check_batches net address mid_block batch_starts st =
            (Ret (Some (Z.min (batch_start + BATCH_SIZE) (mid_block + 1))),
             st').
Proof.
  intros mid bss. induction bss as [|bs rest IH]; intros st.
  - exists st. now left.
  - rewrite check_batches_cons. cbv zeta.
    destruct (get_block_transactions_batch_cases net (fun _ => True)
                (py_range bs (Z.min (bs + BATCH_SIZE) (mid + 1)) 1)
                (after (EPrint (MsgCheckingBatch bs
                                  (Z.min (bs + BATCH_SIZE) (mid + 1)))) st))
      as [st1 [_ [[n [rs [_ ->]]] | [e1 [e2 [e3 [_ [_ [_ ->]]]]]]]]].
    + now apply Forall_forall.
    + destruct (existsb (involves address) (extend_all [] rs)).
      * eexists. right. exists bs. split; [now left | reflexivity].
      * destruct (IH st1) as [st' [H | [b [Hin H]]]]; exists st';
          [now left | right; exists b; split; [now right | exact H]].
    + destruct (IH (after (EPrint (MsgErrorCheckingBatch bs
                                    (Z.min (bs + BATCH_SIZE) (mid + 1)) e3))
                      st1)) as [st' [H | [b [Hin H]]]]; exists st';
        [now left | right; exists b; split; [now right | exact H]].
Qed.

Lemma fine_phase_returns : forall blocks st,
  exists r st', fine_phase net address blocks st = (Ret r, st').
Proof.
  induction blocks as [|block rest IH]; intros st.
  - exists None, st. reflexivity.
  - rewrite fine_phase_cons.
    destruct (get_block_transactions_batch_cases net (fun _ => True)
                [block] (after (EPrint (MsgCheckingBlock block)) st))
      as [st1 [_ [[n [rs [_ ->]]] | [e1 [e2 [e3 [_ [_ [_ ->]]]]]]]]].
    + now apply Forall_forall.
    + destruct (existsb (involves address) (extend_all [] rs)); eauto.
    + apply IH.
Qed.

(** The coarse phase raises nothing, and when it ends the window is
    empty. *)
Lemma coarse_phase_outcome : forall fuel start_block end_block st,
  (exists s' e' st',
      coarse_phase net fuel address start_block end_block st =
      (Ret (s', e'), st') /\ e' < s')
  \/ exists st',
       coarse_phase net fuel address start_block end_block st =
       (Timeout, st').
Proof.
  induction fuel as [|fuel IH]; intros s e st;
    destruct (Z_lt_le_dec e s) as [Hlt | Hle].
  - left. exists s, e, st. split; [now apply coarse_phase_done | exact Hlt].
  - right. exists st. now apply coarse_phase_out_of_fuel.
  - left. exists s, e, st. split; [now apply coarse_phase_done | exact Hlt].
  - rewrite coarse_phase_step by exact Hle. cbv zeta.
    destruct (check_batches_returns ((s + e) / 2)
                (py_range s ((s + e) / 2 + 1) BATCH_SIZE)
                (after (EPrint (MsgCheckingRange s ((s + e) / 2) e)) st))
      as [st1 [-> | [b [_ ->]]]]; apply IH.
Qed.

Lemma binary_search_first_transaction_run :
  forall fuel start_block end_block st,
    binary_search_first_transaction net fuel address start_block end_block st =
    match coarse_phase net fuel address start_block end_block
            (after (EPrint MsgBinarySearchStart) st) with
    | (Ret (s', e'), st1) =>
        match fine_phase net address (py_range s' (e' + 1) 1) st1 with
        | (Ret (Some b), st2) => (Ret (Some b), st2)
        | (Ret None, st2) =>
            (Ret None, after (EPrint MsgNoTransactionsFound) st2)
        | (Raise x, st2) => (Raise x, st2)
        | (Timeout, st2) => (Timeout, st2)
        end
    | (Raise x, st1) => (Raise x, st1)
    | (Timeout, st1) => (Timeout, st1)
    end.
Proof.
  intros fuel s e st.
  unfold binary_search_first_transaction, bind, print, emit, ret.
  destruct (coarse_phase net fuel address s e _) as [[[s' e']|x|] st1];
    try reflexivity.
  destruct (fine_phase net address _ st1) as [[[b|]|x|] st2]; reflexivity.
Qed.

(** Whatever the endpoint answers, the locator either reports "not found"
    or never returns. *)
Lemma binary_search_first_transaction_outcome :
  forall fuel start_block end_block st,
    (exists st',
        binary_search_first_transaction net fuel address start_block
          end_block st = (Ret None, after (EPrint MsgNoTransactionsFound) st'))
    \/ exists st',
         binary_search_first_transaction net fuel address start_block
           end_block st = (Timeout, st').
Proof.
  intros fuel s e st. rewrite binary_search_first_transaction_run.
  destruct (coarse_phase_outcome fuel s e
              (after (EPrint MsgBinarySearchStart) st))
    as [[s' [e' [st' [E Hlt]]]] | [st' E]]; rewrite E.
  - left. rewrite py_range_empty by lia. cbn [fine_phase].
    unfold ret. eexists. reflexivity.
  - right. eexists. reflexivity.
Qed.

End Locator.

(* ================================================================== *)
(** ** The locator against a node serving a fixed chain *)

Section LocatorOnChain.

Variable chain : Z -> option (list transaction).
Variable fails : nat -> option exn.
Variable address : string.

Local Abbreviation net := (node chain fails).

Lemma inactive_batch : forall blocks,
  (forall b, In b blocks -> ~ active_at chain address b) ->
  existsb (involves address) (flat_map (block_txs chain) blocks) = false.
Proof.
  intros blocks H. apply not_true_iff_false. intros E.
  apply existsb_flat_map in E. destruct E as [b [Hin Hb]].
  exact (H b Hin Hb).
Qed.

(** With no matching transaction in any of its batches the batch loop uses
    up its range, whether the fetches succeed or fail. *)
Lemma check_batches_quiet : forall mid_block batch_starts st,
  (forall bs b,
      In bs batch_starts ->
      In b (py_range bs (Z.min (bs + BATCH_SIZE) (mid_block + 1)) 1) ->
      ~ active_at chain address b) ->
  exists st',
    check_batches net address mid_block batch_starts st = (Ret None, st').
Proof.
  intros mid bss. induction bss as [|bs rest IH]; intros st Hq.
  - exists st. reflexivity.
  - rewrite check_batches_cons. cbv zeta.
    destruct (node_fetch_cases chain fails (fun _ => True)
                (py_range bs (Z.min (bs + BATCH_SIZE) (mid + 1)) 1)
                (after (EPrint (MsgCheckingBatch bs
                                  (Z.min (bs + BATCH_SIZE) (mid + 1)))) st))
      as [st1 [_ [E | [e E]]]].
    + now apply Forall_forall.
    + rewrite E. rewrite inactive_batch.
      * apply IH. intros bs' b Hin. apply Hq. now right.
      * intros b Hb. apply (Hq bs b); [now left | exact Hb].
    + rewrite E. apply IH. intros bs' b Hin. apply Hq.
      now right.
Qed.

Lemma coarse_phase_quiet : forall fuel start_block end_block st,
  (forall b, start_block <= b <= end_block -> ~ active_at chain address b) ->
  (Z.to_nat (end_block - start_block + 1) <= fuel)%nat ->
  exists s' st',
    coarse_phase net fuel address start_block end_block st =
    (Ret (s', end_block), st')
    /\ end_block < s'.
Proof.
  induction fuel as [|fuel IH]; intros s e st Hq Hfuel;
    destruct (Z_lt_le_dec e s) as [Hlt | Hle];
    try (exists s, st; split; [now apply coarse_phase_done | exact Hlt]).
  - lia.
  - rewrite coarse_phase_step by exact Hle. cbv zeta.
    assert (Hmid : s <= (s + e) / 2 <= e).
    { split; [apply Z.div_le_lower_bound | apply Z.div_le_upper_bound]; lia. }
    destruct (check_batches_quiet ((s + e) / 2)
                (py_range s ((s + e) / 2 + 1) BATCH_SIZE)
                (after (EPrint (MsgCheckingRange s ((s + e) / 2) e)) st))
      as [st1 E].
    + intros bs b Hbs Hb.
      apply py_range_step_In in Hbs; [|reflexivity].
      apply py_range_unit_In in Hb. apply Hq. lia.
    + rewrite E. apply IH.
      * intros b Hb. apply Hq. lia.
      * lia.
Qed.

Hypothesis fails_reliable : reliable fails.

(** When every logical call goes through, the batch loop breaks exactly at
    the first batch that holds a matching transaction. *)
Lemma check_batches_reliable : forall mid_block batch_starts st,
  exists st',
    (check_batches net address mid_block batch_starts st = (Ret None, st')
     /\ forall bs b,
          In bs batch_starts ->
          In b (py_range bs (Z.min (bs + BATCH_SIZE) (mid_block + 1)) 1) ->
          ~ active_at chain address b)
    \/ exists bs b,
         In bs batch_starts
         /\ In b (py_range bs (Z.min (bs + BATCH_SIZE) (mid_block + 1)) 1)
         /\ active_at chain address b
         /\ check_batches net address mid_block batch_starts st =
            (Ret (Some (Z.min (bs + BATCH_SIZE) (mid_block + 1))), st').
Proof.
  intros mid bss. induction bss as [|bs rest IH]; intros st.
  - exists st. left. split; [reflexivity | intros bs b []].
  - rewrite check_batches_cons. cbv zeta.
    destruct (node_fetch_reliable chain fails (fun _ => True)
                (py_range bs (Z.min (bs + BATCH_SIZE) (mid + 1)) 1)
                (after (EPrint (MsgCheckingBatch bs
                                  (Z.min (bs + BATCH_SIZE) (mid + 1)))) st)
                fails_reliable)
      as [st1 [_ E]].
    + now apply Forall_forall.
    + rewrite E.
      destruct (existsb (involves address)
                  (flat_map (block_txs chain)
                     (py_range bs (Z.min (bs + BATCH_SIZE) (mid + 1)) 1)))
        eqn:Ex.
      * apply existsb_flat_map in Ex. destruct Ex as [b [Hb Hact]].
        eexists. right. exists bs, b.
        repeat split; [now left | exact Hb | exact Hact].
      * destruct (IH st1) as [st' [[H Hq] | [bs' [b [Hin [Hb [Hact H]]]]]]];
          exists st'.
        -- left. split; [exact H|]. intros bs' b [<- | Hin] Hb.
           ++ intros Hact.
              assert (existsb (involves address)
                        (flat_map (block_txs chain)
                           (py_range bs
                              (Z.min (bs + BATCH_SIZE) (mid + 1)) 1)) = true)
                by (apply existsb_flat_map; eauto).
              congruence.
           ++ now apply (Hq bs').
        -- right. exists bs', b. repeat split; trivial. now right.
Qed.

(** The defect of the coarse phase: once the window holds a matching
    transaction, no iteration can empty it.  A batch with a match moves
    [end_block] to that batch's exclusive end, which lies above the match;
    a pass without a match moves [start_block] past [mid_block], which lies
    below it. *)
Lemma coarse_phase_diverges : forall fuel start_block end_block st,
  (exists b, start_block <= b <= end_block /\ active_at chain address b) ->
  exists st',
    coarse_phase net fuel address start_block end_block st = (Timeout, st').
Proof.
  induction fuel as [|fuel IH]; intros s e st [b [Hb Hact]].
  - exists st. apply coarse_phase_out_of_fuel. lia.
  - rewrite coarse_phase_step by lia. cbv zeta.
    assert (Hmid : s <= (s + e) / 2 <= e).
    { split; [apply Z.div_le_lower_bound | apply Z.div_le_upper_bound]; lia. }
    destruct (check_batches_reliable ((s + e) / 2)
                (py_range s ((s + e) / 2 + 1) BATCH_SIZE)
                (after (EPrint (MsgCheckingRange s ((s + e) / 2) e)) st))
      as [st1 [[E Hq] | [bs [b' [Hbs [Hb' [Hact' E]]]]]]]; rewrite E.
    + apply IH. exists b. split; [|exact Hact].
      destruct (Z_le_gt_dec b ((s + e) / 2)) as [Hle | Hgt]; [|lia].
      exfalso.
      destruct (py_range_step_cover s ((s + e) / 2 + 1) BATCH_SIZE b)
        as [bs [Hbs Hcov]]; [reflexivity | lia |].
      apply (Hq bs b Hbs); [|exact Hact].
      apply py_range_unit_In. lia.
    + apply IH. exists b'. split; [|exact Hact'].
      apply py_range_step_In in Hbs; [|reflexivity].
      apply py_range_unit_In in Hb'. lia.
Qed.

Lemma binary_search_first_transaction_diverges :
  forall fuel start_block end_block st,
    (exists b, start_block <= b <= end_block /\ active_at chain address b) ->
    exists st',
      binary_search_first_transaction net fuel address start_block
        end_block st = (Timeout, st').
Proof.
  intros fuel s e st H. rewrite binary_search_first_transaction_run.
  destruct (coarse_phase_diverges fuel s e
              (after (EPrint MsgBinarySearchStart) st) H) as [st' E].
  rewrite E. eauto.
Qed.

End LocatorOnChain.

(* ================================================================== *)
(** ** The locator: claims *)

Lemma only_transfer_active : forall at_block,
  active_at (only_transfer_at at_block) wallet at_block.
Proof.
  intros B. unfold active_at, block_txs, only_transfer_at.
  rewrite Z.eqb_refl. reflexivity.
Qed.

Lemma only_transfer_inactive : forall at_block address b,
  b <> at_block -> ~ active_at (only_transfer_at at_block) address b.
Proof.
  intros B address b Hne. unfold active_at, block_txs, only_transfer_at.
  apply Z.eqb_neq in Hne. rewrite Hne. discriminate.
Qed.

(** C1.  The locator does not return the block of the single matching
    transaction.  Whatever the endpoint answers, it never returns a block
    number at all: the coarse phase only ends with an empty window, so the
    fine phase has nothing to scan.  On a chain whose only transaction of
    the wallet is in block 1000, the first block of the second batch of the
    first pass over [0, 3000], and on one where it is in block 5 of
    [0, 10], the search never returns, whatever the fuel. *)
Theorem locator_misses_single_transaction :
  (forall (net : nat -> payload -> exn + response) fuel address lo hi st b,
      fst (binary_search_first_transaction net fuel address lo hi st)
      <> Ret (Some b))
  /\ (forall fuel,
        fst (binary_search_first_transaction
               (node (only_transfer_at 1000) no_failures) fuel wallet
               0 3000 st0) = Timeout)
  /\ (forall fuel,
        fst (binary_search_first_transaction
               (node (only_transfer_at 5) no_failures) fuel wallet
               0 10 st0) = Timeout).
Proof.
  split; [|split].
  - intros net fuel address lo hi st b.
    destruct (binary_search_first_transaction_outcome net address fuel lo hi
                st) as [[st' E] | [st' E]]; rewrite E; discriminate.
  - intros fuel.
    destruct (binary_search_first_transaction_diverges
                (only_transfer_at 1000) no_failures wallet
                no_failures_reliable fuel 0 3000 st0) as [st' E].
    + exists 1000. split; [lia | apply only_transfer_active].
    + now rewrite E.
  - intros fuel.
    destruct (binary_search_first_transaction_diverges
                (only_transfer_at 5) no_failures wallet
                no_failures_reliable fuel 0 10 st0) as [st' E].
    + exists 5. split; [lia | apply only_transfer_active].
    + now rewrite E.
Qed.

(** C2.  The coarse phase does not always terminate.  On the range [0, 10]
    with the wallet's transaction in block 5 the window settles at
    [4, 6]: the match is found in batch [4, 6) and [end_block] is set to 6
    again, for ever.  On the range [0, 0] whose one block holds the
    transaction, every iteration finds the match in batch [0, 1) and sets
    [end_block] to 1.  In both runs [start_block <= end_block] never fails,
    whatever the fuel. *)
Theorem coarse_phase_loops_on_a_match :
  (forall fuel,
      fst (coarse_phase (node (only_transfer_at 5) no_failures) fuel wallet
             0 10 st0) = Timeout)
  /\ (forall fuel,
        fst (coarse_phase (node (only_transfer_at 0) no_failures) fuel wallet
               0 0 st0) = Timeout).
Proof.
  split; intros fuel.
  - destruct (coarse_phase_diverges (only_transfer_at 5) no_failures wallet
                no_failures_reliable fuel 0 10 st0) as [st' E].
    + exists 5. split; [lia | apply only_transfer_active].
    + now rewrite E.
  - destruct (coarse_phase_diverges (only_transfer_at 0) no_failures wallet
                no_failures_reliable fuel 0 0 st0) as [st' E].
    + exists 0. split; [lia | apply only_transfer_active].
    + now rewrite E.
Qed.

(* ================================================================== *)
(** ** Reading traces *)

Lemma events_since_app : forall st st' evs,
  trace st' = trace st ++ evs -> events_since st st' = evs.
Proof.
  intros st st' evs H. unfold events_since. rewrite H.
  rewrite skipn_app, skipn_all, Nat.sub_diag. reflexivity.
Qed.

Lemma events_since_self : forall st, events_since st st = [].
Proof. intros. apply events_since_app. now rewrite app_nil_r. Qed.

Lemma posts_of_app : forall evs1 evs2,
  posts_of (evs1 ++ evs2) = posts_of evs1 ++ posts_of evs2.
Proof. intros. unfold posts_of. apply flat_map_app. Qed.

Lemma slept_app : forall evs1 evs2,
  slept (evs1 ++ evs2) = slept evs1 + slept evs2.
Proof.
  induction evs1 as [|ev evs1 IH]; intros evs2; cbn; [reflexivity|].
  destruct ev; rewrite IH; lia.
Qed.


Lemma posted_blocks_cons_post : forall p evs,
  posted_blocks (EPost p :: evs) = map req_block p ++ posted_blocks evs.
Proof. reflexivity. Qed.

(** Whether it succeeds or not, a fetch begins by POSTing its payload. *)
Lemma fetch_posts_payload :
  forall (net : nat -> payload -> exn + response) blocks st,
    exists evs,
      trace (snd (get_block_transactions_batch net blocks st))
      = trace st ++ EPost (payloads_of blocks) :: evs.
Proof.
  intros net blocks st.
  assert (H : exists evs,
             trace (snd (call_api net (payloads_of blocks) st))
             = trace st ++ EPost (payloads_of blocks) :: evs).
  { rewrite call_api_run. cbv zeta.
    destruct (net (clock st) (payloads_of blocks));
      [|exists []; reflexivity].
    destruct (net (S (clock st)) (payloads_of blocks));
      [|eexists; cbn; repeat rewrite <- app_assoc; reflexivity].
    destruct (net (S (S (clock st))) (payloads_of blocks));
      eexists; cbn; repeat rewrite <- app_assoc; reflexivity. }
  unfold get_block_transactions_batch, bind.
  destruct (call_api net (payloads_of blocks) st) as [[[rs|]|x|] st1];
    exact H.
Qed.

Section QuietSearch.

Variable chain : Z -> option (list transaction).
Variable fails : nat -> option exn.
Variable address : string.

(** With no matching transaction in its batches the batch loop uses up its
    range, and by then it has requested every block of every batch,
    whichever POSTs failed. *)
Lemma check_batches_quiet_covers : forall mid_block batch_starts st,
  (forall bs b,
      In bs batch_starts ->
      In b (py_range bs (Z.min (bs + BATCH_SIZE) (mid_block + 1)) 1) ->
      ~ active_at chain address b) ->
  exists st' evs,
    check_batches (node chain fails) address mid_block batch_starts st
    = (Ret None, st')
    /\ trace st' = trace st ++ evs
    /\ forall bs b,
         In bs batch_starts ->
         In b (py_range bs (Z.min (bs + BATCH_SIZE) (mid_block + 1)) 1) ->
         In b (posted_blocks evs).
Proof.
  intros mid bss. induction bss as [|bs rest IH]; intros st Hq.
  - exists st, []. repeat split; [now rewrite app_nil_r | intros bs b []].
  - rewrite check_batches_cons. cbv zeta.
    set (blocks := py_range bs (Z.min (bs + BATCH_SIZE) (mid + 1)) 1).
    set (st1 := after (EPrint (MsgCheckingBatch bs
                                 (Z.min (bs + BATCH_SIZE) (mid + 1)))) st).
    destruct (fetch_posts_payload (node chain fails) blocks st1)
      as [evs1 Ht1].
    assert (Hrest : forall bs' b,
               In bs' rest ->
               In b (py_range bs' (Z.min (bs' + BATCH_SIZE) (mid + 1)) 1) ->
               ~ active_at chain address b)
      by (intros bs' b Hin; apply Hq; now right).
    assert (Hcover : forall st2 st' evs evs2,
               trace st2 = trace st1 ++ EPost (payloads_of blocks) :: evs2 ->
               trace st' = trace st2 ++ evs ->
               (forall bs' b,
                   In bs' rest ->
                   In b (py_range bs'
                           (Z.min (bs' + BATCH_SIZE) (mid + 1)) 1) ->
                   In b (posted_blocks evs)) ->
               exists evs',
                 trace st' = trace st ++ evs'
                 /\ forall bs' b,
                      In bs' (bs :: rest) ->
                      In b (py_range bs'
                              (Z.min (bs' + BATCH_SIZE) (mid + 1)) 1) ->
                      In b (posted_blocks evs')).
    { intros st2 st' evs evs2 H2 H' Hin.
      exists ([EPrint (MsgCheckingBatch bs
                         (Z.min (bs + BATCH_SIZE) (mid + 1)))]
              ++ (EPost (payloads_of blocks) :: evs2) ++ evs).
      split.
      - rewrite H', H2. unfold st1. cbn. rewrite <- !app_assoc.
        reflexivity.
      - intros bs' b [<- | Hr] Hb; rewrite !posted_blocks_app.
        + apply in_or_app. right. apply in_or_app. left.
          rewrite posted_blocks_cons_post, payloads_of_blocks.
          apply in_or_app. left. exact Hb.
        + apply in_or_app. right. apply in_or_app. right.
          exact (Hin bs' b Hr Hb). }
    destruct (node_fetch_cases chain fails (fun _ => True) blocks st1)
      as [st2 [_ [E | [x E]]]]; [now apply Forall_forall | |];
      rewrite E in Ht1 |- *; cbn [snd] in Ht1.
    + rewrite (inactive_batch chain address)
        by (intros b Hb; apply (Hq bs b); [now left | exact Hb]).
      destruct (IH st2 Hrest) as [st' [evs [Er [Ht Hin]]]].
      destruct (Hcover st2 st' evs evs1 Ht1 Ht Hin) as [evs' [Ht' Hin']].
      exists st', evs'. repeat split; assumption.
    + destruct (IH (after (EPrint (MsgErrorCheckingBatch bs
                                    (Z.min (bs + BATCH_SIZE) (mid + 1)) x))
                      st2) Hrest) as [st' [evs [Er [Ht Hin]]]].
      destruct (Hcover st2 st'
                  ([EPrint (MsgErrorCheckingBatch bs
                              (Z.min (bs + BATCH_SIZE) (mid + 1)) x)]
                   ++ evs) evs1 Ht1) as [evs' [Ht' Hin']].
      * rewrite Ht. cbn. rewrite <- !app_assoc. reflexivity.
      * intros bs' b Hr Hb. rewrite posted_blocks_app.
        apply in_or_app. right. exact (Hin bs' b Hr Hb).
      * exists st', evs'. repeat split; assumption.
Qed.

(** With no matching transaction in the window the coarse phase runs to its
    end with an empty window, and by then it has requested every block of
    the window it started from. *)
Lemma coarse_phase_quiet_covers : forall fuel start_block end_block st,
  (forall b, start_block <= b <= end_block -> ~ active_at chain address b) ->
  (Z.to_nat (end_block - start_block + 1) <= fuel)%nat ->
  exists s' st' evs,
    coarse_phase (node chain fails) fuel address start_block end_block st
    = (Ret (s', end_block), st')
    /\ end_block < s'
    /\ trace st' = trace st ++ evs
    /\ forall b, start_block <= b <= end_block -> In b (posted_blocks evs).
Proof.
  induction fuel as [|fuel IH]; intros s e st Hq Hfuel;
    destruct (Z_lt_le_dec e s) as [Hlt | Hle];
    try (exists s, st, []; repeat split;
         [now apply coarse_phase_done | exact Hlt | now rewrite app_nil_r
         | intros b Hb; lia]).
  - lia.
  - rewrite coarse_phase_step by exact Hle. cbv zeta.
    assert (Hmid : s <= (s + e) / 2 <= e).
    { split; [apply Z.div_le_lower_bound | apply Z.div_le_upper_bound]; lia. }
    destruct (check_batches_quiet_covers ((s + e) / 2)
                (py_range s ((s + e) / 2 + 1) BATCH_SIZE)
                (after (EPrint (MsgCheckingRange s ((s + e) / 2) e)) st))
      as [st1 [evs1 [E [Ht1 Hin1]]]].
    { intros bs b Hbs Hb.
      apply py_range_step_In in Hbs; [|reflexivity].
      apply py_range_unit_In in Hb. apply Hq. lia. }
    rewrite E.
    destruct (IH ((s + e) / 2 + 1) e
                (after (EPrint (MsgUpdatedRange ((s + e) / 2 + 1) e)) st1))
      as [s' [st' [evs2 [E2 [Hlt [Ht2 Hin2]]]]]].
    { intros b Hb. apply Hq. lia. }
    { lia. }
    exists s', st',
      ([EPrint (MsgCheckingRange s ((s + e) / 2) e)] ++ evs1
       ++ [EPrint (MsgUpdatedRange ((s + e) / 2 + 1) e)] ++ evs2).
    split; [exact E2|]. split; [exact Hlt|]. split.
    + rewrite Ht2. cbn. rewrite Ht1. cbn. rewrite <- !app_assoc. reflexivity.
    + intros b Hb. rewrite !posted_blocks_app.
      destruct (Z_le_gt_dec b ((s + e) / 2)) as [Hbm | Hbm].
      * apply in_or_app. right. apply in_or_app. left.
        destruct (py_range_step_cover s ((s + e) / 2 + 1) BATCH_SIZE b)
          as [bs [Hbs Hcov]]; [reflexivity | lia |].
        apply (Hin1 bs b Hbs). apply py_range_unit_In. lia.
      * apply in_or_app. right. apply in_or_app. right.
        apply in_or_app. right. apply Hin2. lia.
Qed.

End QuietSearch.

(** C6.  When no block of [lo, hi] holds a transaction that involves the
    address, the locator returns "not found" after the full search: the
    coarse phase runs to its end and leaves an empty window above [hi], the
    fine pass over that window finds nothing, and the last thing done is to
    report that no transaction was found.  By then every block of [lo, hi]
    has been requested.  This holds whichever POSTs fail, and the number of
    blocks of the range is enough fuel. *)
Theorem locator_not_found_without_match :
  forall chain fails address lo hi fuel st,
    (forall b, lo <= b <= hi -> ~ active_at chain address b) ->
    (Z.to_nat (hi - lo + 1) <= fuel)%nat ->
    exists s' st',
      coarse_phase (node chain fails) fuel address lo hi
        (after (EPrint MsgBinarySearchStart) st) = (Ret (s', hi), st')
      /\ hi < s'
      /\ fine_phase (node chain fails) address (py_range s' (hi + 1) 1) st'
         = (Ret None, st')
      /\ binary_search_first_transaction (node chain fails) fuel address
           lo hi st
         = (Ret None, after (EPrint MsgNoTransactionsFound) st')
      /\ forall b, lo <= b <= hi ->
                   In b (posted_blocks (events_since st st')).
Proof.
  intros chain fails address lo hi fuel st Hq Hfuel.
  destruct (coarse_phase_quiet_covers chain fails address fuel lo hi
              (after (EPrint MsgBinarySearchStart) st) Hq Hfuel)
    as [s' [st' [evs [E [Hlt [Ht Hin]]]]]].
  exists s', st'. split; [exact E|]. split; [exact Hlt|].
  assert (Hfine : fine_phase (node chain fails) address
                    (py_range s' (hi + 1) 1) st' = (Ret None, st')).
  { rewrite py_range_empty by lia. reflexivity. }
  split; [exact Hfine|]. split.
  - rewrite binary_search_first_transaction_run, E, Hfine. reflexivity.
  - intros b Hb.
    rewrite (events_since_app st st' ([EPrint MsgBinarySearchStart] ++ evs)).
    + rewrite posted_blocks_app. apply in_or_app. right. now apply Hin.
    + rewrite Ht. cbn. rewrite <- !app_assoc. reflexivity.
Qed.

Lemma locator_not_found_without_match_witness :
  exists s' st',
    coarse_phase (node (only_transfer_at 5) (first_fail 4)) 15 wallet 6 20
      (after (EPrint MsgBinarySearchStart) st0) = (Ret (s', 20), st')
    /\ 20 < s'
    /\ fine_phase (node (only_transfer_at 5) (first_fail 4)) wallet
         (py_range s' (20 + 1) 1) st' = (Ret None, st')
    /\ binary_search_first_transaction
         (node (only_transfer_at 5) (first_fail 4)) 15 wallet 6 20 st0
       = (Ret None, after (EPrint MsgNoTransactionsFound) st')
    /\ forall b, 6 <= b <= 20 ->
                 In b (posted_blocks (events_since st0 st')).
Proof.
  apply locator_not_found_without_match.
  - intros b Hb. apply only_transfer_inactive. lia.
  - vm_compute. lia.
Defined.

(** C8.  In the coarse phase a batch whose fetch raises is passed over just
    as a batch that was fetched and holds no match: the loop goes on with
    the remaining batches.  In the fine phase a block whose fetch raises is
    passed over and the scan goes on with the next block.  Neither loop,
    nor the coarse phase, nor the locator as a whole ever raises. *)
Theorem locator_swallows_fetch_errors :
  forall (net : nat -> payload -> exn + response) (address : string),
    (forall mid_block batch_start rest st e st1,
        get_block_transactions_batch net
          (py_range batch_start
             (Z.min (batch_start + BATCH_SIZE) (mid_block + 1)) 1)
          (after (EPrint (MsgCheckingBatch batch_start
                            (Z.min (batch_start + BATCH_SIZE)
                               (mid_block + 1)))) st)
        = (Raise e, st1) ->
        check_batches net address mid_block (batch_start :: rest) st =
        check_batches net address mid_block rest
          (after (EPrint (MsgErrorCheckingBatch batch_start
                            (Z.min (batch_start + BATCH_SIZE)
                               (mid_block + 1)) e)) st1))
    /\ (forall mid_block batch_start rest st batch_txs st1,
          get_block_transactions_batch net
            (py_range batch_start
               (Z.min (batch_start + BATCH_SIZE) (mid_block + 1)) 1)
            (after (EPrint (MsgCheckingBatch batch_start
                              (Z.min (batch_start + BATCH_SIZE)
                                 (mid_block + 1)))) st)
          = (Ret batch_txs, st1) ->
          existsb (involves address) batch_txs = false ->
          check_batches net address mid_block (batch_start :: rest) st =
          check_batches net address mid_block rest st1)
    /\ (forall block rest st e st1,
          get_block_transactions_batch net [block]
            (after (EPrint (MsgCheckingBlock block)) st) = (Raise e, st1) ->
          fine_phase net address (block :: rest) st =
          fine_phase net address rest
            (after (EPrint (MsgErrorCheckingBlock block e)) st1))
    /\ (forall mid_block batch_starts st e,
          fst (check_batches net address mid_block batch_starts st)
          <> Raise e)
    /\ (forall blocks st e, fst (fine_phase net address blocks st) <> Raise e)
    /\ (forall fuel start_block end_block st e,
          fst (coarse_phase net fuel address start_block end_block st)
          <> Raise e)
    /\ (forall fuel start_block end_block st e,
          fst (binary_search_first_transaction net fuel address start_block
                 end_block st) <> Raise e).
Proof.
  intros net address. repeat apply conj.
  - intros mid bs rest st e st1 H. rewrite check_batches_cons. cbv zeta.
    now rewrite H.
  - intros mid bs rest st txs st1 H Hno. rewrite check_batches_cons.
    cbv zeta. now rewrite H, Hno.
  - intros block rest st e st1 H. rewrite fine_phase_cons. now rewrite H.
  - intros mid bss st e.
    destruct (check_batches_returns net address mid bss st)
      as [st' [E | [b [_ E]]]]; rewrite E; discriminate.
  - intros blocks st e.
    destruct (fine_phase_returns net address blocks st) as [r [st' E]].
    rewrite E. discriminate.
  - intros fuel s e0 st e.
    destruct (coarse_phase_outcome net address fuel s e0 st)
      as [[s' [e' [st' [E _]]]] | [st' E]]; rewrite E; discriminate.
  - intros fuel s e0 st e.
    destruct (binary_search_first_transaction_outcome net address fuel s e0
                st) as [[st' E] | [st' E]]; rewrite E; discriminate.
Qed.

Lemma locator_swallows_fetch_errors_witness :
  check_batches (node (only_transfer_at 0) (first_fail 3)) wallet 0 [0] st0 =
  check_batches (node (only_transfer_at 0) (first_fail 3)) wallet 0 []
    (after (EPrint (MsgErrorCheckingBatch 0
                      (Z.min (0 + BATCH_SIZE) (0 + 1))
                      (RequestError "503 Server Error")))
       (snd (get_block_transactions_batch
               (node (only_transfer_at 0) (first_fail 3))
               (py_range 0 (Z.min (0 + BATCH_SIZE) (0 + 1)) 1)
               (after (EPrint (MsgCheckingBatch 0
                                 (Z.min (0 + BATCH_SIZE) (0 + 1)))) st0))))
  /\ fine_phase (node (only_transfer_at 0) (first_fail 3)) wallet [0] st0 =
     fine_phase (node (only_transfer_at 0) (first_fail 3)) wallet []
       (after (EPrint (MsgErrorCheckingBlock 0
                         (RequestError "503 Server Error")))
          (snd (get_block_transactions_batch
                  (node (only_transfer_at 0) (first_fail 3)) [0]
                  (after (EPrint (MsgCheckingBlock 0)) st0)))).
Proof.
  split.
  - apply (proj1 (locator_swallows_fetch_errors
                    (node (only_transfer_at 0) (first_fail 3)) wallet)).
    reflexivity.
  - apply (proj1 (proj2 (proj2 (locator_swallows_fetch_errors
                    (node (only_transfer_at 0) (first_fail 3)) wallet)))).
    reflexivity.
Defined.

(* ================================================================== *)
(** ** The scanner, one step at a time *)

Lemma len_app : forall (A : Type) (l1 l2 : list A),
  len (l1 ++ l2) = len l1 + len l2.
Proof. intros. unfold len. rewrite length_app. lia. Qed.

Lemma len_nonneg : forall (A : Type) (l : list A), 0 <= len l.
Proof. intros. unfold len. lia. Qed.

Lemma slice_to_len : forall (A : Type) (l : list A) k,
  0 <= k -> len (slice_to l k) <= k.
Proof.
  intros A l k Hk. unfold slice_to, len.
  destruct (k <? 0) eqn:E; [apply Z.ltb_lt in E; lia|].
  pose proof (firstn_le_length (Z.to_nat k) l). lia.
Qed.

Lemma slice_to_all : forall (A : Type) (l : list A) k,
  len l <= k -> slice_to l k = l.
Proof.
  intros A l k Hk. unfold slice_to, len in *.
  destruct (k <? 0) eqn:E; [apply Z.ltb_lt in E; lia|].
  apply firstn_all2. lia.
Qed.

Section Scanner.

Variable net : nat -> payload -> exn + response.
Variable address : string.

Lemma scan_loop_stop :
  forall fuel start_block end_block max_transactions transactions st,
    (end_block >=? start_block) && (len transactions <? max_transactions)
    = false ->
    scan_loop net fuel address start_block end_block max_transactions
      transactions st = (Ret transactions, st).
Proof.
  intros fuel lo e mx txs st H. destruct fuel; cbn [scan_loop]; now rewrite H.
Qed.

Lemma scan_loop_step :
  forall fuel start_block end_block max_transactions transactions st,
    start_block <= end_block ->
    len transactions < max_transactions ->
    scan_loop net (S fuel) address start_block end_block max_transactions
      transactions st =
    let batch_start := Z.max (end_block - BATCH_SIZE + 1) start_block in
    match get_block_transactions_batch net
            (py_range batch_start (end_block + 1) 1) st with
    | (Ret batch_txs, st1) =>
        let relevant_txs := filter (involves address) batch_txs in
        scan_loop net fuel address start_block (batch_start - 1)
          max_transactions
          (transactions
           ++ slice_to relevant_txs (max_transactions - len transactions))
          (after (EProgress (end_block - batch_start + 1))
             match relevant_txs with
             | [] => st1
             | _ :: _ =>
                 after (EPrint (MsgFoundCount (List.length relevant_txs)
                                  batch_start end_block)) st1
             end)
    | (Raise e, st1) =>
        scan_loop net fuel address start_block (batch_start - 1)
          max_transactions transactions
          (after (EProgress (end_block - batch_start + 1))
             (after (ESleep 1)
                (after (EPrint (MsgErrorProcessingBatch batch_start
                                  end_block e)) st1)))
    | (Timeout, st1) => (Timeout, st1)
    end.
Proof.
  intros fuel lo e mx txs st Hle Hlen. cbn [scan_loop].
  assert (C : (e >=? lo) && (len txs <? mx) = true).
  { apply andb_true_iff. split; [apply Z.geb_le | apply Z.ltb_lt]; lia. }
  rewrite C. cbv zeta.
  unfold bind, try_except, print, sleep, emit, ret.
  destruct (get_block_transactions_batch net _ st) as [[btxs|x|] st1];
    [|reflexivity|reflexivity].
  destruct (filter (involves address) btxs); reflexivity.
Qed.

(** The loop requests only blocks between the lower bound and its cursor,
    raises nothing, and, given one unit of fuel per block of the range,
    returns at most [max_transactions] transactions when it started with at
    most that many. *)
Lemma scan_loop_outcome :
  forall fuel start_block end_block max_transactions transactions st,
    posts_satisfy (fun b => start_block <= b <= end_block) st
      (snd (scan_loop net fuel address start_block end_block
              max_transactions transactions st))
    /\ (forall e,
          fst (scan_loop net fuel address start_block end_block
                 max_transactions transactions st) <> Raise e)
    /\ ((Z.to_nat (end_block - start_block + 1) <= fuel)%nat ->
        exists txs,
          fst (scan_loop net fuel address start_block end_block
                 max_transactions transactions st) = Ret txs
          /\ (len transactions <= max_transactions ->
              len txs <= max_transactions)).
Proof.
  induction fuel as [|fuel IH]; intros lo e mx txs st;
    destruct ((e >=? lo) && (len txs <? mx)) eqn:C;
    try (rewrite scan_loop_stop by exact C; cbn;
         repeat split;
         [apply posts_satisfy_refl | discriminate | eauto]).
  - apply andb_true_iff in C. destruct C as [C1 C2].
    apply Z.geb_le in C1. apply Z.ltb_lt in C2.
    cbn [scan_loop].
    assert (C : (e >=? lo) && (len txs <? mx) = true).
    { apply andb_true_iff. split; [apply Z.geb_le | apply Z.ltb_lt]; lia. }
    rewrite C. cbn. repeat split.
    + apply posts_satisfy_refl.
    + discriminate.
    + lia.
  - apply andb_true_iff in C. destruct C as [C1 C2].
    apply Z.geb_le in C1. apply Z.ltb_lt in C2.
    rewrite scan_loop_step by assumption. cbv zeta.
    set (bs := Z.max (e - BATCH_SIZE + 1) lo).
    assert (Hbs : lo <= bs <= e) by (unfold bs, BATCH_SIZE; lia).
    assert (Hnarrow : forall b, lo <= b <= bs - 1 -> lo <= b <= e) by lia.
    destruct (get_block_transactions_batch_cases net
                (fun b => lo <= b <= e) (py_range bs (e + 1) 1) st)
      as [st1 [Hps [[n [rs [_ E]]] | [e1 [e2 [e3 [_ [_ [_ E]]]]]]]]].
    { apply Forall_forall. intros b Hb. apply py_range_unit_In in Hb. lia. }
    + rewrite E.
      match goal with
      | |- context [scan_loop net fuel address lo (bs - 1) mx ?t ?s] =>
          destruct (IH lo (bs - 1) mx t s) as [Hp [Hr Ht]]
      end.
      repeat split.
      * eapply posts_satisfy_trans;
          [|eapply posts_satisfy_mono; [exact Hnarrow | exact Hp]].
        destruct (filter (involves address) (extend_all [] rs));
          trace_step; exact Hps.
      * exact Hr.
      * intros Hfuel. destruct Ht as [txs' [Et Hl]]; [lia|].
        exists txs'. split; [exact Et|]. intros Hlen. apply Hl.
        rewrite len_app.
        pose proof (slice_to_len _
                      (filter (involves address) (extend_all [] rs))
                      (mx - len txs)). lia.
    + rewrite E.
      match goal with
      | |- context [scan_loop net fuel address lo (bs - 1) mx ?t ?s] =>
          destruct (IH lo (bs - 1) mx t s) as [Hp [Hr Ht]]
      end.
      repeat split.
      * eapply posts_satisfy_trans;
          [|eapply posts_satisfy_mono; [exact Hnarrow | exact Hp]].
        trace_step; exact Hps.
      * exact Hr.
      * intros Hfuel. destruct Ht as [txs' [Et Hl]]; [lia|].
        exists txs'. split; [exact Et | exact Hl].
Qed.

End Scanner.

(* ================================================================== *)
(** ** The scanner against a node serving a fixed chain *)

Section ScannerOnChain.

Variable chain : Z -> option (list transaction).
Variable fails : nat -> option exn.
Variable address : string.
Hypothesis fails_reliable : reliable fails.

Lemma matching_in_empty : forall lo hi,
  hi < lo -> matching_in chain address lo hi = [].
Proof.
  intros lo hi H. unfold matching_in. now rewrite py_range_empty by lia.
Qed.

Lemma matching_in_split : forall lo m hi,
  lo <= m <= hi + 1 ->
  matching_in chain address lo hi =
  matching_in chain address lo (m - 1) ++ matching_in chain address m hi.
Proof.
  intros lo m hi H. unfold matching_in.
  rewrite (py_range_split lo m (hi + 1)) by lia.
  rewrite flat_map_app, filter_app. now rewrite Z.sub_add.
Qed.

(** When every logical call goes through and the matching transactions of
    the range fit under the limit, the loop collects all of them. *)
Lemma scan_loop_exact :
  forall fuel start_block end_block max_transactions transactions st,
    (Z.to_nat (end_block - start_block + 1) <= fuel)%nat ->
    len transactions + len (matching_in chain address start_block end_block)
    < max_transactions ->
    exists txs st',
      scan_loop (node chain fails) fuel address start_block end_block
        max_transactions transactions st = (Ret txs, st')
      /\ Permutation txs
           (transactions ++ matching_in chain address start_block end_block).
Proof.
  induction fuel as [|fuel IH]; intros lo e mx txs st Hfuel Hcount;
    destruct (Z_lt_le_dec e lo) as [Hlt | Hle];
    try (exists txs, st; split;
         [apply scan_loop_stop; apply andb_false_iff; left;
          unfold Z.geb; destruct (e ?= lo) eqn:Cmp; try reflexivity;
          [apply Z.compare_eq in Cmp | apply Z.compare_gt_iff in Cmp]; lia
         | rewrite matching_in_empty by exact Hlt;
           now rewrite app_nil_r]).
  - lia.
  - pose proof (len_nonneg _ (matching_in chain address lo e)) as Hnn.
    rewrite scan_loop_step by (assumption || lia). cbv zeta.
    set (bs := Z.max (e - BATCH_SIZE + 1) lo).
    assert (Hbs : lo <= bs <= e) by (unfold bs, BATCH_SIZE; lia).
    destruct (node_fetch_reliable chain fails (fun _ => True)
                (py_range bs (e + 1) 1) st fails_reliable)
      as [st1 [_ E]]; [now apply Forall_forall|].
    rewrite E.
    change (filter (involves address)
              (flat_map (block_txs chain) (py_range bs (e + 1) 1)))
      with (matching_in chain address bs e).
    rewrite (matching_in_split lo bs e) in Hcount |- * by lia.
    rewrite len_app in Hcount.
    pose proof (len_nonneg _ (matching_in chain address lo (bs - 1))).
    rewrite slice_to_all by lia.
    match goal with
    | |- context [scan_loop _ fuel address lo (bs - 1) mx ?t ?s] =>
        destruct (IH lo (bs - 1) mx t s) as [r [st' [Er Hp]]]
    end.
    + lia.
    + rewrite len_app. lia.
    + exists r, st'. split; [exact Er|].
      eapply Permutation_trans; [exact Hp|].
      rewrite <- app_assoc. apply Permutation_app_head.
      apply Permutation_app_comm.
Qed.

End ScannerOnChain.

(* ================================================================== *)
(** ** The scanner and the entry point: claims *)

(** C3.  Given a non-negative limit and one unit of fuel per block of the
    range, the scanner returns, with at most [max_transactions]
    transactions, and every block it requested lies in [lo, hi], so it does
    not go below [lo].  When moreover every logical call goes through and
    fewer than [max_transactions] matching transactions exist in [lo, hi],
    what it returns is exactly those transactions (batches newest first). *)
Theorem scanner_bounded_and_exact :
  (forall (net : nat -> payload -> exn + response) address lo hi
          max_transactions fuel st,
      (Z.to_nat (hi - lo + 1) <= fuel)%nat ->
      0 <= max_transactions ->
      exists txs st',
        find_transactions_reverse_chronological net fuel address lo hi
          max_transactions st = (Ret txs, st')
        /\ len txs <= max_transactions
        /\ posts_satisfy (fun b => lo <= b <= hi) st st')
  /\ (forall chain fails address lo hi max_transactions fuel st,
        reliable fails ->
        (Z.to_nat (hi - lo + 1) <= fuel)%nat ->
        len (matching_in chain address lo hi) < max_transactions ->
        exists txs st',
          find_transactions_reverse_chronological (node chain fails) fuel
            address lo hi max_transactions st = (Ret txs, st')
          /\ Permutation txs (matching_in chain address lo hi)).
Proof.
  split.
  - intros net address lo hi mx fuel st Hfuel Hmx.
    unfold find_transactions_reverse_chronological, bind, print, emit.
    destruct (scan_loop_outcome net address fuel lo hi mx []
                (after (EPrint (MsgSearching mx hi lo)) st))
      as [Hp [_ Ht]].
    destruct (Ht Hfuel) as [txs [Et Hl]].
    destruct (scan_loop net fuel address lo hi mx []
                (after (EPrint (MsgSearching mx hi lo)) st))
      as [o st'] eqn:E.
    cbn in Et, Hp. subst o. exists txs, st'. repeat split.
    + apply Hl. exact Hmx.
    + eapply posts_satisfy_trans; [|exact Hp].
      apply posts_satisfy_after. reflexivity.
  - intros chain fails address lo hi mx fuel st Hrel Hfuel Hcount.
    unfold find_transactions_reverse_chronological, bind, print, emit.
    destruct (scan_loop_exact chain fails address Hrel fuel lo hi mx []
                (after (EPrint (MsgSearching mx hi lo)) st) Hfuel)
      as [txs [st' [E Hp]]]; [exact Hcount|].
    rewrite E. exists txs, st'. split; [reflexivity | exact Hp].
Qed.

Lemma scanner_bounded_and_exact_witness :
  (exists txs st',
      find_transactions_reverse_chronological
        (node (only_transfer_at 5) (first_fail 3)) 11 wallet 0 10 1 st0
      = (Ret txs, st')
      /\ len txs <= 1
      /\ posts_satisfy (fun b => 0 <= b <= 10) st0 st')
  /\ (exists txs st',
        find_transactions_reverse_chronological
          (node (only_transfer_at 5) no_failures) 11 wallet 0 10 3 st0
        = (Ret txs, st')
        /\ Permutation txs (matching_in (only_transfer_at 5) wallet 0 10)).
Proof.
  split.
  - apply (proj1 scanner_bounded_and_exact); [vm_compute; lia | lia].
  - apply (proj2 scanner_bounded_and_exact);
      [apply no_failures_reliable | vm_compute; lia | reflexivity].
Defined.

(** C9.  In the scanner a batch whose fetch raises leaves the collected
    transactions as they are; the loop logs, sleeps one second, reports
    progress and goes on with the cursor at [batch_start - 1].  From there
    on it only requests blocks below [batch_start], so the failed batch is
    not fetched again.  The loop and the scanner never raise. *)
Theorem scanner_skips_failed_batch :
  forall (net : nat -> payload -> exn + response) (address : string),
    (forall fuel start_block end_block max_transactions transactions st e st1,
        start_block <= end_block ->
        len transactions < max_transactions ->
        get_block_transactions_batch net
          (py_range (Z.max (end_block - BATCH_SIZE + 1) start_block)
             (end_block + 1) 1) st = (Raise e, st1) ->
        let batch_start := Z.max (end_block - BATCH_SIZE + 1) start_block in
        let st2 :=
          after (EProgress (end_block - batch_start + 1))
            (after (ESleep 1)
               (after (EPrint (MsgErrorProcessingBatch batch_start
                                 end_block e)) st1)) in
        scan_loop net (S fuel) address start_block end_block
          max_transactions transactions st =
        scan_loop net fuel address start_block (batch_start - 1)
          max_transactions transactions st2
        /\ posts_satisfy (fun b => start_block <= b < batch_start) st2
             (snd (scan_loop net fuel address start_block (batch_start - 1)
                     max_transactions transactions st2)))
    /\ (forall fuel start_block end_block max_transactions transactions st e,
          fst (scan_loop net fuel address start_block end_block
                 max_transactions transactions st) <> Raise e)
    /\ (forall fuel start_block end_block max_transactions st e,
          fst (find_transactions_reverse_chronological net fuel address
                 start_block end_block max_transactions st) <> Raise e).
Proof.
  intros net address. split; [|split].
  - intros fuel lo e mx txs st x st1 Hle Hlen E. cbv zeta. split.
    + rewrite scan_loop_step by assumption. cbv zeta. now rewrite E.
    + eapply posts_satisfy_mono;
        [|apply (scan_loop_outcome net address fuel lo
                   (Z.max (e - BATCH_SIZE + 1) lo - 1) mx txs)].
      intros b Hb. cbv beta in Hb. lia.
  - intros fuel lo e mx txs st x.
    apply (scan_loop_outcome net address fuel lo e mx txs st).
  - intros fuel lo e mx st x.
    unfold find_transactions_reverse_chronological, bind, print, emit.
    apply (scan_loop_outcome net address fuel lo e mx []).
Qed.

Lemma scanner_skips_failed_batch_witness :
  scan_loop (node (only_transfer_at 5) (first_fail 3)) 11 wallet 0 10 3
    [] st0 =
  scan_loop (node (only_transfer_at 5) (first_fail 3)) 10 wallet 0
    (Z.max (10 - BATCH_SIZE + 1) 0 - 1) 3 []
    (after (EProgress (10 - Z.max (10 - BATCH_SIZE + 1) 0 + 1))
       (after (ESleep 1)
          (after (EPrint (MsgErrorProcessingBatch
                            (Z.max (10 - BATCH_SIZE + 1) 0) 10
                            (RequestError "503 Server Error")))
             (snd (get_block_transactions_batch
                     (node (only_transfer_at 5) (first_fail 3))
                     (py_range (Z.max (10 - BATCH_SIZE + 1) 0) (10 + 1) 1)
                     st0))))).
Proof.
  apply (proj1 (scanner_skips_failed_batch
                  (node (only_transfer_at 5) (first_fail 3)) wallet));
    [lia | reflexivity | reflexivity].
Defined.

(** C10.  The entry point tests the located block for truthiness, and block
    number 0 is falsy: with creation block 0 it does exactly what it does
    when the locator found nothing, which is to print that no transactions
    were found for the address, without a POST.  Any other located block
    starts the scan and the report. *)
Theorem genesis_block_taken_as_not_found :
  forall (net : nat -> payload -> exn + response) fuel address latest_block st,
    report_from net fuel address latest_block (Some 0) st =
    report_from net fuel address latest_block None st
    /\ report_from net fuel address latest_block (Some 0) st =
       (Ret tt, after (EPrint MsgNoTransactionsForAddress) st)
    /\ (forall b,
          b <> 0 ->
          report_from net fuel address latest_block (Some b) st =
          bind (find_transactions_reverse_chronological net fuel address b
                  latest_block 100)
            (fun transactions => print_report transactions address b)
            (after (EPrint (MsgFirstTransactionIn b)) st)).
Proof.
  intros net fuel address latest st. split; [|split].
  - reflexivity.
  - reflexivity.
  - intros b Hb. unfold report_from, truthy_block.
    apply Z.eqb_neq in Hb. rewrite Hb. reflexivity.
Qed.

Lemma genesis_block_taken_as_not_found_witness :
  report_from (node (only_transfer_at 5) no_failures) 11 wallet 10 (Some 5)
    st0 =
  bind (find_transactions_reverse_chronological
          (node (only_transfer_at 5) no_failures) 11 wallet 5 10 100)
    (fun transactions => print_report transactions wallet 5)
    (after (EPrint (MsgFirstTransactionIn 5)) st0).
Proof.
  apply (proj2 (proj2 (genesis_block_taken_as_not_found
                         (node (only_transfer_at 5) no_failures) 11 wallet
                         10 st0))).
  discriminate.
Defined.

(* ================================================================== *)
(** * Further properties of the program *)

(* ================================================================== *)
(** ** The retrying client, further *)

(** X1.  [call_api] returns the answer of the first POST that succeeds
    among its three attempts: after [k] failed attempts it has POSTed the
    same payload [k + 1] times and slept [2^k - 1] seconds in all. *)
Theorem call_api_returns_first_success :
  forall (net : nat -> payload -> exn + response) p st (k : nat) r,
    (k < 3)%nat ->
    (forall j, (j < k)%nat -> exists e, net (clock st + j)%nat p = inl e) ->
    net (clock st + k)%nat p = inr r ->
    exists st',
      call_api net p st = (Ret (Some r), st')
      /\ clock st' = (clock st + k + 1)%nat
      /\ posts_of (events_since st st') = repeat p (S k)
      /\ slept (events_since st st') = 2 ^ Z.of_nat k - 1.
Proof.
  intros net p st k r Hk Hfail Hok. rewrite call_api_run. cbv zeta.
  destruct k as [|[|[|k]]]; [| | |lia].
  - rewrite Nat.add_0_r in Hok. rewrite Hok.
    eexists. split; [reflexivity|]. split; [cbn; lia|].
    rewrite (events_since_app st _ [EPost p]) by reflexivity.
    split; reflexivity.
  - destruct (Hfail 0%nat) as [e1 H1]; [lia|].
    rewrite Nat.add_0_r in H1. rewrite Nat.add_1_r in Hok.
    rewrite H1, Hok.
    eexists. split; [reflexivity|]. split; [cbn; lia|].
    rewrite (events_since_app st _
               [EPost p; EPrint (MsgApiCallFailed 1 e1); ESleep 1; EPost p])
      by (cbn; repeat rewrite <- app_assoc; reflexivity).
    split; reflexivity.
  - destruct (Hfail 0%nat) as [e1 H1]; [lia|].
    destruct (Hfail 1%nat) as [e2 H2]; [lia|].
    rewrite Nat.add_0_r in H1. rewrite Nat.add_1_r in H2.
    replace (clock st + 2)%nat with (S (S (clock st))) in Hok by lia.
    rewrite H1, H2, Hok.
    eexists. split; [reflexivity|]. split; [cbn; lia|].
    rewrite (events_since_app st _
               [EPost p; EPrint (MsgApiCallFailed 1 e1); ESleep 1;
                EPost p; EPrint (MsgApiCallFailed 2 e2); ESleep 2; EPost p])
      by (cbn; repeat rewrite <- app_assoc; reflexivity).
    split; reflexivity.
Qed.

Lemma call_api_returns_first_success_witness :
  exists st',
    call_api (node (only_transfer_at 5) (first_fail 1)) (payloads_of [5]) st0
    = (Ret (Some [BlockResult (Some [transfer])]), st')
    /\ clock st' = (clock st0 + 1 + 1)%nat
    /\ posts_of (events_since st0 st') = repeat (payloads_of [5]) 2
    /\ slept (events_since st0 st') = 2 ^ Z.of_nat 1 - 1.
Proof.
  apply call_api_returns_first_success.
  - lia.
  - intros j Hj. replace j with 0%nat by lia. eexists. reflexivity.
  - reflexivity.
Defined.

(** X2.  [call_api] never falls off its loop: it returns a response, or it
    raises, and it raises only when all three POSTs failed; the error is
    then that of the third POST, and 3 seconds were slept on the way. *)
Theorem call_api_returns_or_raises_last_error :
  forall (net : nat -> payload -> exn + response) p st,
    (exists r st', call_api net p st = (Ret (Some r), st'))
    \/ (exists e1 e2 e3 st',
          net (clock st) p = inl e1
          /\ net (S (clock st)) p = inl e2
          /\ net (S (S (clock st))) p = inl e3
          /\ call_api net p st = (Raise e3, st')
          /\ posts_of (events_since st st') = [p; p; p]
          /\ slept (events_since st st') = 3).
Proof.
  intros net p st. rewrite call_api_run. cbv zeta.
  destruct (net (clock st) p) as [e1|r1]; [|left; eauto].
  destruct (net (S (clock st)) p) as [e2|r2]; [|left; eauto].
  destruct (net (S (S (clock st))) p) as [e3|r3]; [|left; eauto].
  right. exists e1, e2, e3. eexists. repeat split.
  - rewrite (events_since_app st _
               [EPost p; EPrint (MsgApiCallFailed 1 e1); ESleep 1;
                EPost p; EPrint (MsgApiCallFailed 2 e2); ESleep 2;
                EPost p; EPrint (MsgApiCallFailed 3 e3)])
      by (cbn; repeat rewrite <- app_assoc; reflexivity).
    reflexivity.
  - rewrite (events_since_app st _
               [EPost p; EPrint (MsgApiCallFailed 1 e1); ESleep 1;
                EPost p; EPrint (MsgApiCallFailed 2 e2); ESleep 2;
                EPost p; EPrint (MsgApiCallFailed 3 e3)])
      by (cbn; repeat rewrite <- app_assoc; reflexivity).
    reflexivity.
Qed.

(* ================================================================== *)
(** ** Fetching, further *)

(** X3.  The batch payload has one request per block number, in the order
    given; each asks [eth_getBlockByNumber] with full transactions, and the
    ids are the positions 0, 1, 2, ..., hence distinct within the batch. *)
Theorem payloads_of_shape :
  forall block_numbers,
    map req_block (payloads_of block_numbers) = block_numbers
    /\ map req_id (payloads_of block_numbers)
       = seq 0 (List.length block_numbers)
    /\ NoDup (map req_id (payloads_of block_numbers))
    /\ Forall (fun r => req_method r = "eth_getBlockByNumber"%string
                        /\ req_full r = true)
         (payloads_of block_numbers).
Proof.
  intros blocks. split; [apply payloads_of_blocks|].
  split; [apply payloads_of_ids|]. split.
  - rewrite payloads_of_ids. apply seq_NoDup.
  - unfold payloads_of. apply Forall_forall. intros r Hr.
    apply in_map_iff in Hr. destruct Hr as [[i b] [<- _]]. now split.
Qed.

(** X4.  Retries are invisible to the caller of a fetch: against a node,
    as long as one of every three consecutive POSTs succeeds, the fetch
    returns the transactions of the requested blocks, block by block in the
    order requested, exactly as it does when no POST fails. *)
Theorem fetch_same_result_despite_retries :
  forall chain fails blocks st,
    reliable fails ->
    fst (get_block_transactions_batch (node chain fails) blocks st)
    = Ret (flat_map (block_txs chain) blocks)
    /\ fst (get_block_transactions_batch (node chain fails) blocks st)
       = fst (get_block_transactions_batch (node chain no_failures) blocks
                st).
Proof.
  intros chain fails blocks st Hrel.
  destruct (node_fetch_reliable chain fails (fun _ => True) blocks st Hrel)
    as [st1 [_ E1]]; [now apply Forall_forall|].
  destruct (node_fetch_reliable chain no_failures (fun _ => True) blocks st
              no_failures_reliable) as [st2 [_ E2]];
    [now apply Forall_forall|].
  now rewrite E1, E2.
Qed.

Lemma first_fail_two_reliable : reliable (first_fail 2).
Proof.
  intros n. unfold first_fail.
  destruct n as [|[|n]]; cbn; auto.
Qed.

Lemma fetch_same_result_despite_retries_witness :
  fst (get_block_transactions_batch
         (node (only_transfer_at 5) (first_fail 2)) [4; 5; 6] st0)
  = Ret (flat_map (block_txs (only_transfer_at 5)) [4; 5; 6])
  /\ fst (get_block_transactions_batch
            (node (only_transfer_at 5) (first_fail 2)) [4; 5; 6] st0)
     = fst (get_block_transactions_batch
              (node (only_transfer_at 5) no_failures) [4; 5; 6] st0).
Proof.
  apply fetch_same_result_despite_retries. apply first_fail_two_reliable.
Defined.

(* ================================================================== *)
(** ** The locator, further *)

Lemma find_range_from_least : forall (f : Z -> bool) n s,
  match find f (range_from n s 1) with
  | Some b =>
      s <= b < s + Z.of_nat n /\ f b = true
      /\ forall b', s <= b' < b -> f b' = false
  | None => forall b, s <= b < s + Z.of_nat n -> f b = false
  end.
Proof.
  intros f. induction n as [|n IH]; intros s; cbn [range_from find].
  - intros b Hb. lia.
  - destruct (f s) eqn:Fs.
    + repeat split; try lia. exact Fs.
    + specialize (IH (s + 1)).
      destruct (find f (range_from n (s + 1) 1)) as [b|].
      * destruct IH as [Hb [Fb Hleast]]. repeat split; try lia; [exact Fb|].
        intros b' Hb'. destruct (Z.eq_dec b' s) as [-> | Hne];
          [exact Fs | apply Hleast; lia].
      * intros b Hb. destruct (Z.eq_dec b s) as [-> | Hne];
          [exact Fs | apply IH; lia].
Qed.

Section FinePhaseOnChain.

Variable chain : Z -> option (list transaction).
Variable fails : nat -> option exn.
Variable address : string.
Hypothesis fails_reliable : reliable fails.

Lemma fine_phase_first_active : forall blocks st,
  exists st',
    fine_phase (node chain fails) address blocks st
    = (Ret (first_active chain address blocks), st').
Proof.
  induction blocks as [|block rest IH]; intros st.
  - exists st. reflexivity.
  - rewrite fine_phase_cons.
    destruct (node_fetch_reliable chain fails (fun _ => True) [block]
                (after (EPrint (MsgCheckingBlock block)) st) fails_reliable)
      as [st1 [_ E]]; [now apply Forall_forall|].
    rewrite E. cbn [flat_map first_active find]. rewrite app_nil_r.
    unfold first_active. cbn [find].
    destruct (existsb (involves address) (block_txs chain block)).
    + eexists. reflexivity.
    + apply IH.
Qed.

End FinePhaseOnChain.

(** X5.  Taken by itself the fine phase is right: when every logical call
    goes through, a scan of blocks [s..e] returns the lowest block of the
    window that holds a transaction involving the address, and "not found"
    exactly when the window holds none. *)
Theorem fine_phase_returns_lowest_active_block :
  forall chain fails address s e st,
    reliable fails ->
    exists st',
      fine_phase (node chain fails) address (py_range s (e + 1) 1) st
      = (Ret (first_active chain address (py_range s (e + 1) 1)), st')
      /\ match first_active chain address (py_range s (e + 1) 1) with
         | Some b =>
             s <= b <= e /\ active_at chain address b
             /\ forall b', s <= b' < b -> ~ active_at chain address b'
         | None => forall b, s <= b <= e -> ~ active_at chain address b
         end.
Proof.
  intros chain fails address s e st Hrel.
  destruct (fine_phase_first_active chain fails address Hrel
              (py_range s (e + 1) 1) st) as [st' E].
  exists st'. split; [exact E|].
  unfold first_active. rewrite py_range_unit.
  pose proof (find_range_from_least
                (fun b => existsb (involves address) (block_txs chain b))
                (Z.to_nat (e + 1 - s)) s) as H.
  destruct (find _ (range_from (Z.to_nat (e + 1 - s)) s 1)) as [b|].
  - destruct H as [Hb [Fb Hleast]]. repeat split; try lia; [exact Fb|].
    intros b' Hb'. unfold active_at. rewrite Hleast by lia. discriminate.
  - intros b Hb. unfold active_at. rewrite H by lia. discriminate.
Qed.

Lemma fine_phase_returns_lowest_active_block_witness :
  exists st',
    fine_phase (node (only_transfer_at 5) (first_fail 2)) wallet
      (py_range 3 (8 + 1) 1) st0
    = (Ret (first_active (only_transfer_at 5) wallet (py_range 3 (8 + 1) 1)),
       st')
    /\ match first_active (only_transfer_at 5) wallet (py_range 3 (8 + 1) 1)
       with
       | Some b =>
           3 <= b <= 8 /\ active_at (only_transfer_at 5) wallet b
           /\ forall b', 3 <= b' < b ->
                         ~ active_at (only_transfer_at 5) wallet b'
       | None =>
           forall b, 3 <= b <= 8 -> ~ active_at (only_transfer_at 5) wallet b
       end.
Proof.
  apply fine_phase_returns_lowest_active_block.
  apply first_fail_two_reliable.
Defined.

Lemma coarse_phase_quiet_halving :
  forall chain fails address fuel start_block end_block st,
    (forall b, start_block <= b <= end_block ->
               ~ active_at chain address b) ->
    end_block - start_block + 1 < 2 ^ Z.of_nat fuel ->
    exists s' st',
      coarse_phase (node chain fails) fuel address start_block end_block st
      = (Ret (s', end_block), st')
      /\ end_block < s'.
Proof.
  intros chain fails address.
  induction fuel as [|fuel IH]; intros s e st Hq Hfuel;
    destruct (Z_lt_le_dec e s) as [Hlt | Hle];
    try (exists s, st; split; [now apply coarse_phase_done | exact Hlt]).
  - cbn in Hfuel. lia.
  - rewrite coarse_phase_step by exact Hle. cbv zeta.
    assert (Hmid : s <= (s + e) / 2 <= e).
    { split; [apply Z.div_le_lower_bound | apply Z.div_le_upper_bound]; lia. }
    assert (Hhalf : s + e - 1 <= 2 * ((s + e) / 2)).
    { pose proof (Z.mul_succ_div_gt (s + e) 2). lia. }
    destruct (check_batches_quiet chain fails address ((s + e) / 2)
                (py_range s ((s + e) / 2 + 1) BATCH_SIZE)
                (after (EPrint (MsgCheckingRange s ((s + e) / 2) e)) st))
      as [st1 E].
    + intros bs b Hbs Hb.
      apply py_range_step_In in Hbs; [|reflexivity].
      apply py_range_unit_In in Hb. apply Hq. lia.
    + rewrite E. apply IH.
      * intros b Hb. apply Hq. lia.
      * rewrite Nat2Z.inj_succ, Z.pow_succ_r in Hfuel by lia. lia.
Qed.

(** X6.  Without a matching transaction in [lo, hi] the coarse phase halves
    its window at every iteration, so the locator returns "not found"
    within [fuel] iterations of the [while] loop as soon as the number of
    blocks is below [2^fuel], whichever POSTs fail. *)
Theorem locator_not_found_in_log_iterations :
  forall chain fails address lo hi fuel st,
    (forall b, lo <= b <= hi -> ~ active_at chain address b) ->
    hi - lo + 1 < 2 ^ Z.of_nat fuel ->
    exists st',
      binary_search_first_transaction (node chain fails) fuel address lo hi st
      = (Ret None, after (EPrint MsgNoTransactionsFound) st').
Proof.
  intros chain fails address lo hi fuel st Hq Hfuel.
  rewrite binary_search_first_transaction_run.
  destruct (coarse_phase_quiet_halving chain fails address fuel lo hi
              (after (EPrint MsgBinarySearchStart) st) Hq Hfuel)
    as [s' [st' [E Hlt]]].
  rewrite E. rewrite py_range_empty by lia. cbn [fine_phase]. unfold ret.
  now exists st'.
Qed.

Lemma locator_not_found_in_log_iterations_witness :
  exists st',
    binary_search_first_transaction
      (node (only_transfer_at 5) (first_fail 4)) 20 wallet 6 1000000 st0
    = (Ret None, after (EPrint MsgNoTransactionsFound) st').
Proof.
  apply locator_not_found_in_log_iterations.
  - intros b Hb. apply only_transfer_inactive. lia.
  - vm_compute. reflexivity.
Defined.

Lemma posts_satisfy_after_l : forall P ev st st',
  posts_satisfy P (after ev st) st' -> posted_blocks [ev] = [] ->
  posts_satisfy P st st'.
Proof.
  intros P ev st st' H Hev. eapply posts_satisfy_trans; [|exact H].
  now apply posts_satisfy_after.
Qed.

Lemma posts_satisfy_after_r : forall P ev st st',
  posts_satisfy P st st' -> posted_blocks [ev] = [] ->
  posts_satisfy P st (after ev st').
Proof.
  intros P ev st st' H Hev. eapply posts_satisfy_trans; [exact H|].
  now apply posts_satisfy_after.
Qed.

Lemma check_batches_posts :
  forall (net : nat -> payload -> exn + response) address (P : Z -> Prop)
         mid_block batch_starts st,
    (forall bs b,
        In bs batch_starts ->
        In b (py_range bs (Z.min (bs + BATCH_SIZE) (mid_block + 1)) 1) ->
        P b) ->
    posts_satisfy P st
      (snd (check_batches net address mid_block batch_starts st)).
Proof.
  intros net address P mid bss.
  induction bss as [|bs rest IH]; intros st HP.
  - apply posts_satisfy_refl.
  - rewrite check_batches_cons. cbv zeta.
    destruct (get_block_transactions_batch_cases net P
                (py_range bs (Z.min (bs + BATCH_SIZE) (mid + 1)) 1)
                (after (EPrint (MsgCheckingBatch bs
                                  (Z.min (bs + BATCH_SIZE) (mid + 1)))) st))
      as [st1 [Hps [[n [rs [_ E]]] | [e1 [e2 [e3 [_ [_ [_ E]]]]]]]]].
    { apply Forall_forall. intros b Hb. apply (HP bs b); [now left | exact Hb]. }
    + rewrite E.
      assert (Hst1 : posts_satisfy P st st1)
        by (eapply posts_satisfy_after_l; [exact Hps | reflexivity]).
      destruct (existsb (involves address) (extend_all [] rs)).
      * cbn [snd]. apply posts_satisfy_after_r; [exact Hst1 | reflexivity].
      * eapply posts_satisfy_trans; [exact Hst1|]. apply IH.
        intros bs' b Hin. apply HP. now right.
    + rewrite E. eapply posts_satisfy_trans; [|apply IH].
      * apply posts_satisfy_after_r; [|reflexivity].
        eapply posts_satisfy_after_l; [exact Hps | reflexivity].
      * intros bs' b Hin. apply HP. now right.
Qed.

Lemma coarse_phase_posts_above :
  forall (net : nat -> payload -> exn + response) address lo fuel
         start_block end_block st,
    lo <= start_block ->
    posts_satisfy (fun b => lo <= b) st
      (snd (coarse_phase net fuel address start_block end_block st)).
Proof.
  intros net address lo.
  induction fuel as [|fuel IH]; intros s e st Hlo;
    destruct (Z_lt_le_dec e s) as [Hlt | Hle];
    try (rewrite coarse_phase_done by exact Hlt; apply posts_satisfy_refl).
  - rewrite coarse_phase_out_of_fuel by exact Hle. apply posts_satisfy_refl.
  - rewrite coarse_phase_step by exact Hle. cbv zeta.
    assert (Hmid : s <= (s + e) / 2 <= e).
    { split; [apply Z.div_le_lower_bound | apply Z.div_le_upper_bound]; lia. }
    pose proof (check_batches_posts net address (fun b => lo <= b)
                  ((s + e) / 2) (py_range s ((s + e) / 2 + 1) BATCH_SIZE)
                  (after (EPrint (MsgCheckingRange s ((s + e) / 2) e)) st))
      as Hcb.
    assert (Hblocks : forall bs b,
               In bs (py_range s ((s + e) / 2 + 1) BATCH_SIZE) ->
               In b (py_range bs
                       (Z.min (bs + BATCH_SIZE) ((s + e) / 2 + 1)) 1) ->
               lo <= b).
    { intros bs b Hbs Hb. apply py_range_step_In in Hbs; [|reflexivity].
      apply py_range_unit_In in Hb. lia. }
    specialize (Hcb Hblocks).
    destruct (check_batches_returns net address ((s + e) / 2)
                (py_range s ((s + e) / 2 + 1) BATCH_SIZE)
                (after (EPrint (MsgCheckingRange s ((s + e) / 2) e)) st))
      as [st1 [E | [b [_ E]]]]; rewrite E in *; cbn [snd] in Hcb.
    + eapply posts_satisfy_trans; [|apply IH; lia].
      apply posts_satisfy_after_r; [|reflexivity].
      eapply posts_satisfy_after_l; [exact Hcb | reflexivity].
    + eapply posts_satisfy_trans; [|apply IH; lia].
      apply posts_satisfy_after_r; [|reflexivity].
      eapply posts_satisfy_after_l; [exact Hcb | reflexivity].
Qed.

Lemma coarse_phase_posts_within :
  forall chain fails address lo hi,
    reliable fails ->
    forall fuel start_block end_block st,
      lo <= start_block ->
      (end_block <= hi
       \/ (end_block = hi + 1
           /\ exists b, start_block <= b <= hi /\ active_at chain address b)) ->
      posts_satisfy (fun b => lo <= b <= hi) st
        (snd (coarse_phase (node chain fails) fuel address start_block
                end_block st)).
Proof.
  intros chain fails address lo hi Hrel.
  induction fuel as [|fuel IH]; intros s e st Hlo Hinv;
    destruct (Z_lt_le_dec e s) as [Hlt | Hle];
    try (rewrite coarse_phase_done by exact Hlt; apply posts_satisfy_refl).
  - rewrite coarse_phase_out_of_fuel by exact Hle. apply posts_satisfy_refl.
  - rewrite coarse_phase_step by exact Hle. cbv zeta.
    assert (Hmid : s <= (s + e) / 2 <= e).
    { split; [apply Z.div_le_lower_bound | apply Z.div_le_upper_bound]; lia. }
    assert (Hmhi : (s + e) / 2 <= hi).
    { destruct Hinv as [He | [He [b [Hb _]]]]; [lia|].
      apply Z.lt_succ_r. apply Z.div_lt_upper_bound; lia. }
    pose proof (check_batches_posts (node chain fails) address
                  (fun b => lo <= b <= hi)
                  ((s + e) / 2) (py_range s ((s + e) / 2 + 1) BATCH_SIZE)
                  (after (EPrint (MsgCheckingRange s ((s + e) / 2) e)) st))
      as Hcb.
    assert (Hblocks : forall bs b,
               In bs (py_range s ((s + e) / 2 + 1) BATCH_SIZE) ->
               In b (py_range bs
                       (Z.min (bs + BATCH_SIZE) ((s + e) / 2 + 1)) 1) ->
               lo <= b <= hi).
    { intros bs b Hbs Hb. apply py_range_step_In in Hbs; [|reflexivity].
      apply py_range_unit_In in Hb. lia. }
    specialize (Hcb Hblocks).
    destruct (check_batches_reliable chain fails address Hrel ((s + e) / 2)
                (py_range s ((s + e) / 2 + 1) BATCH_SIZE)
                (after (EPrint (MsgCheckingRange s ((s + e) / 2) e)) st))
      as [st1 [[E Hq] | [bs [b' [Hbs [Hb' [Hact' E]]]]]]];
      rewrite E in *; cbn [snd] in Hcb.
    + eapply posts_satisfy_trans; [|apply IH].
      * apply posts_satisfy_after_r; [|reflexivity].
        eapply posts_satisfy_after_l; [exact Hcb | reflexivity].
      * lia.
      * destruct Hinv as [He | [He [b [Hb Hact]]]]; [now left | right].
        split; [exact He|]. exists b. split; [|exact Hact].
        destruct (Z_le_gt_dec b ((s + e) / 2)) as [Hbm | Hbm]; [|lia].
        exfalso.
        destruct (py_range_step_cover s ((s + e) / 2 + 1) BATCH_SIZE b)
          as [bs [Hbs Hcov]]; [reflexivity | lia |].
        apply (Hq bs b Hbs); [|exact Hact].
        apply py_range_unit_In. lia.
    + eapply posts_satisfy_trans; [|apply IH].
      * apply posts_satisfy_after_r; [|reflexivity].
        eapply posts_satisfy_after_l; [exact Hcb | reflexivity].
      * lia.
      * apply py_range_step_In in Hbs; [|reflexivity].
        apply py_range_unit_In in Hb'.
        destruct (Z_le_gt_dec
                    (Z.min (bs + BATCH_SIZE) ((s + e) / 2 + 1)) hi)
          as [Hbe | Hbe]; [now left | right].
        split; [lia|]. exists b'. split; [lia | exact Hact'].
Qed.

Lemma binary_search_first_transaction_posts :
  forall (net : nat -> payload -> exn + response) address (P : Z -> Prop)
         fuel start_block end_block st,
    posts_satisfy P (after (EPrint MsgBinarySearchStart) st)
      (snd (coarse_phase net fuel address start_block end_block
              (after (EPrint MsgBinarySearchStart) st))) ->
    posts_satisfy P st
      (snd (binary_search_first_transaction net fuel address start_block
              end_block st)).
Proof.
  intros net address P fuel s e st H.
  rewrite binary_search_first_transaction_run.
  destruct (coarse_phase_outcome net address fuel s e
              (after (EPrint MsgBinarySearchStart) st))
    as [[s' [e' [st' [E Hlt]]]] | [st' E]]; rewrite E in *; cbn [snd] in H.
  - rewrite py_range_empty by lia. cbn [fine_phase]. unfold ret. cbn [snd].
    apply posts_satisfy_after_r; [|reflexivity].
    eapply posts_satisfy_after_l; [exact H | reflexivity].
  - cbn [snd]. eapply posts_satisfy_after_l; [exact H | reflexivity].
Qed.

(** X7.  Whatever the endpoint answers and however long it runs, the
    locator never requests a block below [start_block].  Against a node
    whose logical calls go through it never requests a block above
    [end_block] either, although its window may reach one block past
    [end_block]. *)
Theorem locator_requests_stay_in_range :
  (forall (net : nat -> payload -> exn + response) fuel address lo hi st,
      posts_satisfy (fun b => lo <= b) st
        (snd (binary_search_first_transaction net fuel address lo hi st)))
  /\ (forall chain fails address lo hi fuel st,
        reliable fails ->
        posts_satisfy (fun b => lo <= b <= hi) st
          (snd (binary_search_first_transaction (node chain fails) fuel
                  address lo hi st))).
Proof.
  split.
  - intros net fuel address lo hi st.
    apply binary_search_first_transaction_posts.
    apply coarse_phase_posts_above. lia.
  - intros chain fails address lo hi fuel st Hrel.
    apply binary_search_first_transaction_posts.
    apply coarse_phase_posts_within; [exact Hrel | lia | now left].
Qed.

Lemma locator_requests_stay_in_range_witness :
  posts_satisfy (fun b => 0 <= b <= 10) st0
    (snd (binary_search_first_transaction
            (node (only_transfer_at 10) (first_fail 2)) 7 wallet 0 10 st0)).
Proof.
  apply (proj2 locator_requests_stay_in_range).
  apply first_fail_two_reliable.
Defined.

(** After a fetch that failed three times the window of the locator can
    move past [end_block]: here block 1 is requested for the range [0, 0],
    and the wallet's transaction in block 0 is reported as not found. *)
Example locator_overshoots_after_failed_fetch :
  posted_blocks
    (trace (snd (binary_search_first_transaction
                   (node (only_transfer_at 0) (fail_between 1 3)) 4 wallet
                   0 0 st0))) = [0; 0; 0; 0; 1]
  /\ fst (binary_search_first_transaction
            (node (only_transfer_at 0) (fail_between 1 3)) 4 wallet 0 0 st0)
     = Ret None.
Proof. split; reflexivity. Qed.

Lemma batches_cover_range : forall n start stop,
  n = Z.to_nat ((stop - start + BATCH_SIZE - 1) / BATCH_SIZE) ->
  flat_map (fun bs => py_range bs (Z.min (bs + BATCH_SIZE) stop) 1)
    (range_from n start BATCH_SIZE)
  = py_range start stop 1.
Proof.
  unfold BATCH_SIZE.
  induction n as [|n IH]; intros start stop Hn.
  - cbn. symmetry. apply py_range_empty.
    assert ((stop - start + 1000 - 1) / 1000 <= 0) by lia.
    pose proof (Z.mul_succ_div_gt (stop - start + 1000 - 1) 1000). lia.
  - cbn [range_from flat_map].
    assert (Hq : 1 <= (stop - start + 1000 - 1) / 1000) by lia.
    assert (Hlt : start < stop).
    { pose proof (Z.mul_div_le (stop - start + 1000 - 1) 1000). lia. }
    rewrite IH.
    + destruct (Z_le_gt_dec (start + 1000) stop) as [Hle | Hgt].
      * rewrite Z.min_l by lia. symmetry. apply py_range_split. lia.
      * rewrite Z.min_r by lia.
        rewrite (py_range_empty (start + 1000) stop) by lia.
        apply app_nil_r.
    + replace (stop - (start + 1000) + 1000 - 1)
        with (stop - start + 1000 - 1 + (-1) * 1000) by lia.
      rewrite Z.div_add by lia. lia.
Qed.

Section QuietLocator.

Variable chain : Z -> option (list transaction).
Variable address : string.

Lemma node_fetch_no_failures : forall blocks st,
  get_block_transactions_batch (node chain no_failures) blocks st
  = (Ret (flat_map (block_txs chain) blocks),
     after_post (payloads_of blocks) st).
Proof.
  intros blocks st.
  unfold get_block_transactions_batch, bind. rewrite call_api_run.
  cbv zeta. unfold node at 1, no_failures at 1. unfold ret.
  do 2 f_equal. apply (node_answer chain no_failures 0). reflexivity.
Qed.

Lemma check_batches_quiet_trace : forall mid_block batch_starts st,
  (forall bs b,
      In bs batch_starts ->
      In b (py_range bs (Z.min (bs + BATCH_SIZE) (mid_block + 1)) 1) ->
      ~ active_at chain address b) ->
  exists st' evs,
    check_batches (node chain no_failures) address mid_block batch_starts st
    = (Ret None, st')
    /\ trace st' = trace st ++ evs
    /\ posted_blocks evs
       = flat_map (fun bs =>
                     py_range bs (Z.min (bs + BATCH_SIZE) (mid_block + 1)) 1)
           batch_starts.
Proof.
  intros mid bss. induction bss as [|bs rest IH]; intros st Hq.
  - exists st, []. repeat split. now rewrite app_nil_r.
  - rewrite check_batches_cons. cbv zeta.
    rewrite node_fetch_no_failures.
    rewrite (inactive_batch chain address)
      by (intros b Hb; apply (Hq bs b); [now left | exact Hb]).
    destruct (IH (after_post
                    (payloads_of
                       (py_range bs (Z.min (bs + BATCH_SIZE) (mid + 1)) 1))
                    (after (EPrint (MsgCheckingBatch bs
                                      (Z.min (bs + BATCH_SIZE) (mid + 1))))
                       st)))
      as [st' [evs [E [Ht Hp]]]].
    { intros bs' b Hin. apply Hq. now right. }
    exists st',
      ([EPrint (MsgCheckingBatch bs (Z.min (bs + BATCH_SIZE) (mid + 1)));
        EPost (payloads_of
                 (py_range bs (Z.min (bs + BATCH_SIZE) (mid + 1)) 1))]
       ++ evs).
    split; [exact E|]. split.
    + rewrite Ht. cbn. rewrite <- !app_assoc. reflexivity.
    + rewrite posted_blocks_app, Hp. cbn [posted_blocks flat_map app].
      rewrite app_nil_r, payloads_of_blocks. reflexivity.
Qed.

Lemma coarse_phase_quiet_trace : forall fuel start_block end_block st,
  (forall b, start_block <= b <= end_block -> ~ active_at chain address b) ->
  end_block - start_block + 1 < 2 ^ Z.of_nat fuel ->
  exists s' st' evs,
    coarse_phase (node chain no_failures) fuel address start_block end_block
      st = (Ret (s', end_block), st')
    /\ end_block < s'
    /\ trace st' = trace st ++ evs
    /\ posted_blocks evs = py_range start_block (end_block + 1) 1.
Proof.
  induction fuel as [|fuel IH]; intros s e st Hq Hfuel;
    destruct (Z_lt_le_dec e s) as [Hlt | Hle];
    try (exists s, st, []; repeat split;
         [now apply coarse_phase_done | exact Hlt | now rewrite app_nil_r
         | now rewrite py_range_empty by lia]).
  - cbn in Hfuel. lia.
  - rewrite coarse_phase_step by exact Hle. cbv zeta.
    assert (Hmid : s <= (s + e) / 2 <= e).
    { split; [apply Z.div_le_lower_bound | apply Z.div_le_upper_bound]; lia. }
    assert (Hhalf : s + e - 1 <= 2 * ((s + e) / 2)).
    { pose proof (Z.mul_succ_div_gt (s + e) 2). lia. }
    destruct (check_batches_quiet_trace ((s + e) / 2)
                (py_range s ((s + e) / 2 + 1) BATCH_SIZE)
                (after (EPrint (MsgCheckingRange s ((s + e) / 2) e)) st))
      as [st1 [evs1 [E [Ht1 Hp1]]]].
    { intros bs b Hbs Hb.
      apply py_range_step_In in Hbs; [|reflexivity].
      apply py_range_unit_In in Hb. apply Hq. lia. }
    rewrite E.
    destruct (IH ((s + e) / 2 + 1) e
                (after (EPrint (MsgUpdatedRange ((s + e) / 2 + 1) e)) st1))
      as [s' [st' [evs2 [E2 [Hlt [Ht2 Hp2]]]]]].
    { intros b Hb. apply Hq. lia. }
    { rewrite Nat2Z.inj_succ, Z.pow_succ_r in Hfuel by lia. lia. }
    exists s', st',
      ([EPrint (MsgCheckingRange s ((s + e) / 2) e)] ++ evs1
       ++ [EPrint (MsgUpdatedRange ((s + e) / 2 + 1) e)] ++ evs2).
    split; [exact E2|]. split; [exact Hlt|]. split.
    + rewrite Ht2. cbn. rewrite Ht1. cbn. rewrite <- !app_assoc. reflexivity.
    + rewrite !posted_blocks_app, Hp1, Hp2.
      change (posted_blocks [EPrint (MsgCheckingRange s ((s + e) / 2) e)])
        with (@nil Z).
      change (posted_blocks [EPrint (MsgUpdatedRange ((s + e) / 2 + 1) e)])
        with (@nil Z).
      cbn [app].
      rewrite (py_range_split s ((s + e) / 2 + 1) (e + 1)) by lia.
      f_equal.
      exact (batches_cover_range _ s ((s + e) / 2 + 1) eq_refl).
Qed.

End QuietLocator.

(** X8.  The search is a linear scan in disguise.  On a range without a
    matching transaction, and with no POST failing, the locator needs only
    about log2 of the number of blocks iterations of its [while] loop, but
    across them it requests every block of [lo, hi], each exactly once and
    in ascending order. *)
Theorem locator_quiet_run_requests_every_block :
  forall chain address lo hi fuel st,
    (forall b, lo <= b <= hi -> ~ active_at chain address b) ->
    hi - lo + 1 < 2 ^ Z.of_nat fuel ->
    posted_blocks
      (events_since st
         (snd (binary_search_first_transaction (node chain no_failures) fuel
                 address lo hi st)))
    = py_range lo (hi + 1) 1.
Proof.
  intros chain address lo hi fuel st Hq Hfuel.
  rewrite binary_search_first_transaction_run.
  destruct (coarse_phase_quiet_trace chain address fuel lo hi
              (after (EPrint MsgBinarySearchStart) st) Hq Hfuel)
    as [s' [st' [evs [E [Hlt [Ht Hp]]]]]].
  rewrite E. rewrite py_range_empty by lia. cbn [fine_phase]. unfold ret.
  cbn [snd].
  rewrite (events_since_app st _
             ([EPrint MsgBinarySearchStart] ++ evs
              ++ [EPrint MsgNoTransactionsFound])).
  - rewrite !posted_blocks_app. cbn. rewrite app_nil_r. exact Hp.
  - cbn. rewrite Ht. cbn. rewrite <- !app_assoc. reflexivity.
Qed.

Lemma locator_quiet_run_requests_every_block_witness :
  posted_blocks
    (events_since st0
       (snd (binary_search_first_transaction
               (node (only_transfer_at 5) no_failures) 12 wallet 6 2500
               st0)))
  = py_range 6 (2500 + 1) 1.
Proof.
  apply locator_quiet_run_requests_every_block.
  - intros b Hb. apply only_transfer_inactive. lia.
  - vm_compute. reflexivity.
Defined.

(* ================================================================== *)
(** ** The entry point, further *)

(** X9.  Whatever the endpoint answers, the entry point never gets to the
    scan or to the report of transactions: from the latest block number on
    it either never returns from the locator, or it ends with the two lines
    "No transactions found" and "No transactions found for this address.",
    and it raises nothing. *)
Theorem entry_point_never_reports_transactions :
  forall (net : nat -> payload -> exn + response) fuel address latest_block
         st,
    (exists st',
        main_from net fuel address latest_block st
        = (Ret tt,
           after (EPrint MsgNoTransactionsForAddress)
             (after (EPrint MsgNoTransactionsFound) st')))
    \/ (exists st',
          main_from net fuel address latest_block st = (Timeout, st')).
Proof.
  intros net fuel address latest st.
  unfold main_from, bind, print, emit.
  destruct (binary_search_first_transaction_outcome net address fuel 0 latest
              (after (EPrint (MsgLatestBlock latest)) st))
    as [[st' E] | [st' E]]; rewrite E.
  - left. exists st'. reflexivity.
  - right. exists st'. reflexivity.
Qed.

(* ================================================================== *)
(** ** The scanner, further *)

Lemma slice_to_firstn : forall (A : Type) (l : list A) k,
  exists n, slice_to l k = firstn n l.
Proof.
  intros A l k. unfold slice_to. destruct (k <? 0); eauto.
Qed.

Lemma slice_to_incl : forall (A : Type) (l : list A) k x,
  In x (slice_to l k) -> In x l.
Proof.
  intros A l k x H. destruct (slice_to_firstn A l k) as [n E].
  rewrite E in H. rewrite <- (firstn_skipn n l). apply in_or_app. now left.
Qed.

Lemma scan_loop_from_responses :
  forall (net : nat -> payload -> exn + response) address
         (Q : transaction -> Prop) lo hi,
    (forall n blocks rs tx,
        Forall (fun b => lo <= b <= hi) blocks ->
        net n (payloads_of blocks) = inr rs ->
        In tx (filter (involves address) (extend_all [] rs)) -> Q tx) ->
    forall fuel end_block max_transactions transactions st txs st',
      end_block <= hi ->
      scan_loop net fuel address lo end_block max_transactions
        transactions st = (Ret txs, st') ->
      Forall Q transactions -> Forall Q txs.
Proof.
  intros net address Q lo hi HQ.
  induction fuel as [|fuel IH]; intros e mx txs st r st' Hhi Hrun Hinit;
    destruct ((e >=? lo) && (len txs <? mx)) eqn:C;
    try (rewrite scan_loop_stop in Hrun by exact C;
         inversion Hrun; subst; exact Hinit).
  - cbn [scan_loop] in Hrun. rewrite C in Hrun. discriminate.
  - apply andb_true_iff in C. destruct C as [C1 C2].
    apply Z.geb_le in C1. apply Z.ltb_lt in C2.
    rewrite scan_loop_step in Hrun by assumption. cbv zeta in Hrun.
    assert (Hblocks : Forall (fun b => lo <= b <= hi)
                        (py_range (Z.max (e - BATCH_SIZE + 1) lo) (e + 1) 1)).
    { apply Forall_forall. intros b Hb. apply py_range_unit_In in Hb. lia. }
    destruct (get_block_transactions_batch_cases net
                (fun b => lo <= b <= hi)
                (py_range (Z.max (e - BATCH_SIZE + 1) lo) (e + 1) 1) st
                Hblocks)
      as [st1 [_ [[n [rs [Hn E]]] | [e1 [e2 [e3 [_ [_ [_ E]]]]]]]]].
    + rewrite E in Hrun. eapply IH; [|exact Hrun|].
      * unfold BATCH_SIZE. lia.
      * apply Forall_app. split; [exact Hinit|].
        apply Forall_forall. intros tx Htx. apply slice_to_incl in Htx.
        exact (HQ n _ rs tx Hblocks Hn Htx).
    + rewrite E in Hrun. eapply IH; [|exact Hrun | exact Hinit].
      unfold BATCH_SIZE. lia.
Qed.

(** X10.  The scanner returns nothing but matches: whatever the endpoint
    answers, every transaction it returns involves the address; and against
    a node, whichever POSTs fail, every transaction it returns is one of the
    matching transactions of blocks [lo..hi] of the chain. *)
Theorem scanner_returns_only_matches :
  (forall (net : nat -> payload -> exn + response) fuel address lo hi
          max_transactions st txs st',
      find_transactions_reverse_chronological net fuel address lo hi
        max_transactions st = (Ret txs, st') ->
      Forall (fun tx => involves address tx = true) txs)
  /\ (forall chain fails fuel address lo hi max_transactions st txs st',
        find_transactions_reverse_chronological (node chain fails) fuel
          address lo hi max_transactions st = (Ret txs, st') ->
        incl txs (matching_in chain address lo hi)).
Proof.
  split.
  - intros net fuel address lo hi mx st txs st' Hrun.
    unfold find_transactions_reverse_chronological, bind, print, emit
      in Hrun.
    eapply (scan_loop_from_responses net address
              (fun tx => involves address tx = true) lo hi);
      [|apply Z.le_refl | exact Hrun | constructor].
    intros n blocks rs tx _ _ Htx. apply filter_In in Htx. tauto.
  - intros chain fails fuel address lo hi mx st txs st' Hrun.
    unfold find_transactions_reverse_chronological, bind, print, emit
      in Hrun.
    intros tx Htx.
    assert (H : Forall (fun tx => In tx (matching_in chain address lo hi))
                  txs).
    { eapply (scan_loop_from_responses (node chain fails) address _ lo hi);
        [|apply Z.le_refl | exact Hrun | constructor].
      intros n blocks rs tx' Hblocks Hn Htx'.
      rewrite (node_answer chain fails n blocks rs Hn) in Htx'.
      apply filter_In in Htx'. destruct Htx' as [Hin Hinv].
      unfold matching_in. apply filter_In. split; [|exact Hinv].
      apply in_flat_map in Hin. destruct Hin as [b [Hb Hin]].
      apply in_flat_map. exists b. split; [|exact Hin].
      apply py_range_unit_In.
      rewrite Forall_forall in Hblocks. specialize (Hblocks b Hb). lia. }
    rewrite Forall_forall in H. exact (H tx Htx).
Qed.

Lemma scanner_returns_only_matches_witness :
  Forall (fun tx => involves wallet tx = true) [transfer]
  /\ incl [transfer] (matching_in (only_transfer_at 5) wallet 0 10).
Proof.
  split.
  - apply (proj1 scanner_returns_only_matches
             (node (only_transfer_at 5) (first_fail 2)) 11%nat wallet 0 10 100
             st0 [transfer]
             (snd (find_transactions_reverse_chronological
                     (node (only_transfer_at 5) (first_fail 2)) 11 wallet
                     0 10 100 st0))).
    reflexivity.
  - apply (proj2 scanner_returns_only_matches
             (only_transfer_at 5) (first_fail 2) 11%nat wallet 0 10 100
             st0 [transfer]
             (snd (find_transactions_reverse_chronological
                     (node (only_transfer_at 5) (first_fail 2)) 11 wallet
                     0 10 100 st0))).
    reflexivity.
Defined.

Section ScanOrder.

Variable chain : Z -> option (list transaction).
Variable fails : nat -> option exn.
Variable address : string.
Hypothesis fails_reliable : reliable fails.

Lemma newest_first_all : forall n lo hi,
  (Z.to_nat (hi - lo + 1) <= n)%nat ->
  Permutation (newest_first n chain address lo hi)
    (matching_in chain address lo hi).
Proof.
  induction n as [|n IH]; intros lo hi Hn.
  - cbn. rewrite matching_in_empty by lia. constructor.
  - cbn [newest_first]. destruct (hi <? lo) eqn:C.
    + apply Z.ltb_lt in C. rewrite matching_in_empty by lia. constructor.
    + apply Z.ltb_ge in C. cbv zeta.
      set (bs := Z.max (hi - BATCH_SIZE + 1) lo).
      assert (Hbs : lo <= bs <= hi) by (unfold bs, BATCH_SIZE; lia).
      rewrite (matching_in_split chain address lo bs hi) by lia.
      eapply Permutation_trans; [apply Permutation_app_comm|].
      apply Permutation_app_tail. apply IH. lia.
Qed.

Lemma scan_loop_prefix :
  forall fuel start_block end_block max_transactions transactions st,
    (Z.to_nat (end_block - start_block + 1) <= fuel)%nat ->
    len transactions <= max_transactions ->
    exists st',
      scan_loop (node chain fails) fuel address start_block end_block
        max_transactions transactions st
      = (Ret (transactions
              ++ firstn (Z.to_nat (max_transactions - len transactions))
                   (newest_first fuel chain address start_block end_block)),
         st').
Proof.
  induction fuel as [|fuel IH]; intros lo e mx txs st Hfuel Hlen.
  - exists st. rewrite scan_loop_stop.
    + cbn. now rewrite firstn_nil, app_nil_r.
    + apply andb_false_iff. left. rewrite Z.geb_leb. apply Z.leb_gt. lia.
  - destruct ((e >=? lo) && (len txs <? mx)) eqn:C.
    + apply andb_true_iff in C. destruct C as [C1 C2].
      apply Z.geb_le in C1. apply Z.ltb_lt in C2.
      rewrite scan_loop_step by assumption. cbv zeta.
      cbn [newest_first].
      assert (Cl : (e <? lo) = false) by (apply Z.ltb_ge; lia).
      rewrite Cl. cbv zeta.
      set (bs := Z.max (e - BATCH_SIZE + 1) lo).
      assert (Hbs : lo <= bs <= e) by (unfold bs, BATCH_SIZE; lia).
      destruct (node_fetch_reliable chain fails (fun _ => True)
                  (py_range bs (e + 1) 1) st fails_reliable)
        as [st1 [_ E]]; [now apply Forall_forall|].
      rewrite E.
      change (filter (involves address)
                (flat_map (block_txs chain) (py_range bs (e + 1) 1)))
        with (matching_in chain address bs e).
      set (rel := matching_in chain address bs e).
      assert (Hslice : slice_to rel (mx - len txs)
                       = firstn (Z.to_nat (mx - len txs)) rel).
      { unfold slice_to.
        destruct (mx - len txs <? 0) eqn:K; [|reflexivity].
        apply Z.ltb_lt in K. lia. }
      rewrite Hslice.
      match goal with
      | |- context [scan_loop _ fuel address lo (bs - 1) mx ?t ?s] =>
          destruct (IH lo (bs - 1) mx t s) as [st' Er]
      end.
      * lia.
      * rewrite len_app. unfold len in *. rewrite length_firstn.
        destruct (Nat.min_spec (Z.to_nat (mx - Z.of_nat (List.length txs)))
                    (List.length rel)) as [[? ->] | [? ->]]; lia.
      * exists st'. rewrite Er. f_equal.
        rewrite <- app_assoc. f_equal.
        rewrite firstn_app. f_equal.
        rewrite len_app. unfold len in *. rewrite length_firstn. f_equal.
        destruct (Nat.min_spec (Z.to_nat (mx - Z.of_nat (List.length txs)))
                    (List.length rel)) as [[? ->] | [? ->]]; f_equal; lia.
    + exists st. rewrite scan_loop_stop by exact C.
      apply andb_false_iff in C. destruct C as [C | C].
      * assert (Cl : (e <? lo) = true).
        { apply Z.ltb_lt. rewrite Z.geb_leb in C. apply Z.leb_gt in C. lia. }
        cbn [newest_first]. rewrite Cl.
        now rewrite firstn_nil, app_nil_r.
      * apply Z.ltb_ge in C.
        replace (Z.to_nat (mx - len txs)) with 0%nat by lia.
        cbn [firstn]. now rewrite app_nil_r.
Qed.

End ScanOrder.

(** X11.  What the scanner returns when every logical call goes through:
    the first [max_transactions] of the matching transactions of [lo, hi]
    taken batch by batch from [hi] downwards, each batch in ascending block
    order.  That list holds every matching transaction of the range once,
    so the number returned is the smaller of the limit and the number of
    matches. *)
Theorem scanner_returns_newest_batches_first :
  forall chain fails address lo hi max_transactions fuel st,
    reliable fails ->
    (Z.to_nat (hi - lo + 1) <= fuel)%nat ->
    0 <= max_transactions ->
    exists st',
      find_transactions_reverse_chronological (node chain fails) fuel
        address lo hi max_transactions st
      = (Ret (firstn (Z.to_nat max_transactions)
                (newest_first fuel chain address lo hi)), st')
      /\ Permutation (newest_first fuel chain address lo hi)
           (matching_in chain address lo hi)
      /\ len (firstn (Z.to_nat max_transactions)
                (newest_first fuel chain address lo hi))
         = Z.min max_transactions (len (matching_in chain address lo hi)).
Proof.
  intros chain fails address lo hi mx fuel st Hrel Hfuel Hmx.
  unfold find_transactions_reverse_chronological, bind, print, emit.
  destruct (scan_loop_prefix chain fails address Hrel fuel lo hi mx []
              (after (EPrint (MsgSearching mx hi lo)) st) Hfuel)
    as [st' E]; [cbn; lia|].
  pose proof (newest_first_all chain address fuel lo hi Hfuel) as Hperm.
  exists st'. split; [|split].
  - rewrite E. cbn [app]. do 3 f_equal. cbn. lia.
  - exact Hperm.
  - unfold len. rewrite length_firstn, (Permutation_length Hperm).
    destruct (Nat.min_spec (Z.to_nat mx)
                (List.length (matching_in chain address lo hi)))
      as [[? ->] | [? ->]]; lia.
Qed.

Lemma scanner_returns_newest_batches_first_witness :
  exists st',
    find_transactions_reverse_chronological
      (node (only_transfer_at 5) (first_fail 2)) 11 wallet 0 10 1 st0
    = (Ret (firstn (Z.to_nat 1)
              (newest_first 11 (only_transfer_at 5) wallet 0 10)), st')
    /\ Permutation (newest_first 11 (only_transfer_at 5) wallet 0 10)
         (matching_in (only_transfer_at 5) wallet 0 10)
    /\ len (firstn (Z.to_nat 1)
              (newest_first 11 (only_transfer_at 5) wallet 0 10))
       = Z.min 1 (len (matching_in (only_transfer_at 5) wallet 0 10)).
Proof.
  apply scanner_returns_newest_batches_first.
  - apply first_fail_two_reliable.
  - vm_compute. lia.
  - lia.
Defined.

Lemma call_api_clock :
  forall (net : nat -> payload -> exn + response) p st,
    (clock st <= clock (snd (call_api net p st)) <= clock st + 3)%nat.
Proof.
  intros net p st. rewrite call_api_run. cbv zeta.
  destruct (net (clock st) p); [|cbn; lia].
  destruct (net (S (clock st)) p); [|cbn; lia].
  destruct (net (S (S (clock st))) p); cbn; lia.
Qed.

Lemma fetch_clock :
  forall (net : nat -> payload -> exn + response) blocks st,
    (clock st <= clock (snd (get_block_transactions_batch net blocks st))
     <= clock st + 3)%nat.
Proof.
  intros net blocks st.
  pose proof (call_api_clock net (payloads_of blocks) st) as H.
  unfold get_block_transactions_batch, bind.
  destruct (call_api net (payloads_of blocks) st) as [[[rs|]|e|] st1];
    exact H.
Qed.

Lemma scan_loop_clock :
  forall (net : nat -> payload -> exn + response) address fuel start_block
         end_block max_transactions transactions st,
    Z.of_nat (clock (snd (scan_loop net fuel address start_block end_block
                            max_transactions transactions st)))
    <= Z.of_nat (clock st)
       + 3 * Z.max 0 ((end_block - start_block + BATCH_SIZE) / BATCH_SIZE).
Proof.
  intros net address.
  induction fuel as [|fuel IH]; intros lo e mx txs st;
    destruct ((e >=? lo) && (len txs <? mx)) eqn:C;
    try (rewrite scan_loop_stop by exact C; cbn [snd];
         generalize ((e - lo + BATCH_SIZE) / BATCH_SIZE); intros; lia).
  - cbn [scan_loop]. rewrite C. unfold timeout. cbn [snd].
    generalize ((e - lo + BATCH_SIZE) / BATCH_SIZE). intros. lia.
  - apply andb_true_iff in C. destruct C as [C1 C2].
    apply Z.geb_le in C1. apply Z.ltb_lt in C2.
    rewrite scan_loop_step by assumption. cbv zeta.
    pose proof (fetch_clock net
                  (py_range (Z.max (e - BATCH_SIZE + 1) lo) (e + 1) 1) st)
      as Hc.
    assert (Hstep : 3 * Z.max 0
                      ((Z.max (e - BATCH_SIZE + 1) lo - 1 - lo + BATCH_SIZE)
                       / BATCH_SIZE) + 3
                    <= 3 * Z.max 0 ((e - lo + BATCH_SIZE) / BATCH_SIZE)).
    { unfold BATCH_SIZE.
      replace (e - lo + 1000) with (e - lo + 1 * 1000) by lia.
      rewrite Z.div_add by lia.
      assert (0 <= (e - lo) / 1000) by (apply Z.div_pos; lia).
      destruct (Z_le_gt_dec lo (e - 1000 + 1)) as [Hge | Hlt].
      - rewrite (Z.max_l (e - 1000 + 1) lo) by lia.
        replace (e - 1000 + 1 - 1 - lo + 1000) with (e - lo) by lia. lia.
      - rewrite (Z.max_r (e - 1000 + 1) lo) by lia.
        replace (lo - 1 - lo + 1000) with 999 by lia.
        change (999 / 1000) with 0. lia. }
    destruct (get_block_transactions_batch net _ st) as [[btxs|x|] st1];
      cbn [snd] in Hc.
    + match goal with
      | |- context [scan_loop net fuel address lo ?e' mx ?t ?s] =>
          pose proof (IH lo e' mx t s) as Hi
      end.
      destruct (filter (involves address) btxs); cbn [clock after] in Hi;
        lia.
    + match goal with
      | |- context [scan_loop net fuel address lo ?e' mx ?t ?s] =>
          pose proof (IH lo e' mx t s) as Hi
      end.
      cbn [clock after] in Hi. lia.
    + cbn [snd]. lia.
Qed.

(** X12.  The scanner makes at most three POSTs for every batch of
    [BATCH_SIZE] blocks of its range, whatever the endpoint answers and
    however far the scan gets. *)
Theorem scanner_posts_at_most_three_per_batch :
  forall (net : nat -> payload -> exn + response) fuel address lo hi
         max_transactions st,
    Z.of_nat (clock (snd (find_transactions_reverse_chronological net fuel
                            address lo hi max_transactions st)))
    <= Z.of_nat (clock st)
       + 3 * Z.max 0 ((hi - lo + BATCH_SIZE) / BATCH_SIZE).
Proof.
  intros net fuel address lo hi mx st.
  unfold find_transactions_reverse_chronological, bind, print, emit.
  apply (scan_loop_clock net address fuel lo hi mx []
           (after (EPrint (MsgSearching mx hi lo)) st)).
Qed.

(* ================================================================== *)
(** ** The shape of the requests *)

Lemma payloads_satisfy_refl : forall Q st, payloads_satisfy Q st st.
Proof.
  intros Q st. exists []. split; [now rewrite app_nil_r | constructor].
Qed.

Lemma payloads_satisfy_trans : forall Q st1 st2 st3,
  payloads_satisfy Q st1 st2 -> payloads_satisfy Q st2 st3 ->
  payloads_satisfy Q st1 st3.
Proof.
  intros Q st1 st2 st3 [evs1 [E1 F1]] [evs2 [E2 F2]].
  exists (evs1 ++ evs2). split.
  - now rewrite E2, E1, app_assoc.
  - rewrite posts_of_app. now apply Forall_app.
Qed.

Lemma payloads_satisfy_after : forall Q ev st,
  posts_of [ev] = [] -> payloads_satisfy Q st (after ev st).
Proof.
  intros Q ev st H. exists [ev]. split; [reflexivity|].
  rewrite H. constructor.
Qed.

Lemma payloads_satisfy_after_post : forall (Q : payload -> Prop) p st,
  Q p -> payloads_satisfy Q st (after_post p st).
Proof.
  intros Q p st H. exists [EPost p]. split; [reflexivity|].
  cbn. now constructor.
Qed.

Lemma payloads_satisfy_after_l : forall Q ev st st',
  payloads_satisfy Q (after ev st) st' -> posts_of [ev] = [] ->
  payloads_satisfy Q st st'.
Proof.
  intros Q ev st st' H Hev. eapply payloads_satisfy_trans; [|exact H].
  now apply payloads_satisfy_after.
Qed.

Lemma payloads_satisfy_after_r : forall Q ev st st',
  payloads_satisfy Q st st' -> posts_of [ev] = [] ->
  payloads_satisfy Q st (after ev st').
Proof.
  intros Q ev st st' H Hev. eapply payloads_satisfy_trans; [exact H|].
  now apply payloads_satisfy_after.
Qed.

Ltac payload_step :=
  repeat first
    [ apply payloads_satisfy_refl
    | (eapply payloads_satisfy_trans;
       [| apply payloads_satisfy_after; reflexivity])
    | (eapply payloads_satisfy_trans;
       [| apply payloads_satisfy_after_post; eassumption]) ].

Section Requests.

Variable net : nat -> payload -> exn + response.
Variable address : string.

Lemma call_api_payloads : forall (Q : payload -> Prop) p st,
  Q p -> payloads_satisfy Q st (snd (call_api net p st)).
Proof.
  intros Q p st HQ. rewrite call_api_run. cbv zeta.
  destruct (net (clock st) p); [|cbn [snd]; payload_step].
  destruct (net (S (clock st)) p); [|cbn [snd]; payload_step].
  destruct (net (S (S (clock st))) p); cbn [snd]; payload_step.
Qed.

Lemma fetch_payloads : forall (Q : payload -> Prop) blocks st,
  Q (payloads_of blocks) ->
  payloads_satisfy Q st (snd (get_block_transactions_batch net blocks st)).
Proof.
  intros Q blocks st HQ.
  pose proof (call_api_payloads Q (payloads_of blocks) st HQ) as H.
  unfold get_block_transactions_batch, bind.
  destruct (call_api net (payloads_of blocks) st) as [[[rs|]|e|] st1];
    exact H.
Qed.

Lemma check_batches_payloads :
  forall (Q : payload -> Prop) mid_block batch_starts st,
    (forall bs,
        In bs batch_starts ->
        Q (payloads_of
             (py_range bs (Z.min (bs + BATCH_SIZE) (mid_block + 1)) 1))) ->
    payloads_satisfy Q st
      (snd (check_batches net address mid_block batch_starts st)).
Proof.
  intros Q mid bss. induction bss as [|bs rest IH]; intros st HQ.
  - apply payloads_satisfy_refl.
  - rewrite check_batches_cons. cbv zeta.
    pose proof (fetch_payloads Q
                  (py_range bs (Z.min (bs + BATCH_SIZE) (mid + 1)) 1)
                  (after (EPrint (MsgCheckingBatch bs
                                    (Z.min (bs + BATCH_SIZE) (mid + 1)))) st)
                  (HQ bs (or_introl eq_refl))) as Hf.
    assert (Hrest : forall bs', In bs' rest ->
                Q (payloads_of
                     (py_range bs' (Z.min (bs' + BATCH_SIZE) (mid + 1)) 1)))
      by (intros bs' Hin; apply HQ; now right).
    destruct (get_block_transactions_batch net _ _) as [[txs|e|] st1];
      cbn [snd] in Hf.
    + assert (Hst1 : payloads_satisfy Q st st1)
        by (eapply payloads_satisfy_after_l; [exact Hf | reflexivity]).
      destruct (existsb (involves address) txs).
      * cbn [snd].
        apply payloads_satisfy_after_r; [exact Hst1 | reflexivity].
      * eapply payloads_satisfy_trans; [exact Hst1 | now apply IH].
    + eapply payloads_satisfy_trans; [|now apply IH].
      apply payloads_satisfy_after_r; [|reflexivity].
      eapply payloads_satisfy_after_l; [exact Hf | reflexivity].
    + cbn [snd]. eapply payloads_satisfy_after_l; [exact Hf | reflexivity].
Qed.

Lemma coarse_batches_are_runs : forall s mid bs,
  In bs (py_range s (mid + 1) BATCH_SIZE) ->
  block_run
    (payloads_of (py_range bs (Z.min (bs + BATCH_SIZE) (mid + 1)) 1)).
Proof.
  intros s mid bs Hbs. apply py_range_step_In in Hbs; [|reflexivity].
  exists bs, (Z.min (bs + BATCH_SIZE) (mid + 1)).
  split; [unfold BATCH_SIZE; lia | reflexivity].
Qed.

Lemma coarse_phase_payloads : forall fuel start_block end_block st,
  payloads_satisfy block_run st
    (snd (coarse_phase net fuel address start_block end_block st)).
Proof.
  induction fuel as [|fuel IH]; intros s e st;
    destruct (Z_lt_le_dec e s) as [Hlt | Hle];
    try (rewrite coarse_phase_done by exact Hlt;
         apply payloads_satisfy_refl).
  - rewrite coarse_phase_out_of_fuel by exact Hle.
    apply payloads_satisfy_refl.
  - rewrite coarse_phase_step by exact Hle. cbv zeta.
    pose proof (check_batches_payloads block_run ((s + e) / 2)
                  (py_range s ((s + e) / 2 + 1) BATCH_SIZE)
                  (after (EPrint (MsgCheckingRange s ((s + e) / 2) e)) st)
                  (coarse_batches_are_runs s ((s + e) / 2))) as Hcb.
    destruct (check_batches_returns net address ((s + e) / 2)
                (py_range s ((s + e) / 2 + 1) BATCH_SIZE)
                (after (EPrint (MsgCheckingRange s ((s + e) / 2) e)) st))
      as [st1 [E | [b [_ E]]]]; rewrite E in *; cbn [snd] in Hcb.
    + eapply payloads_satisfy_trans; [|apply IH].
      apply payloads_satisfy_after_r; [|reflexivity].
      eapply payloads_satisfy_after_l; [exact Hcb | reflexivity].
    + eapply payloads_satisfy_trans; [|apply IH].
      apply payloads_satisfy_after_r; [|reflexivity].
      eapply payloads_satisfy_after_l; [exact Hcb | reflexivity].
Qed.

Lemma scan_loop_payloads :
  forall fuel start_block end_block max_transactions transactions st,
    payloads_satisfy block_run st
      (snd (scan_loop net fuel address start_block end_block
              max_transactions transactions st)).
Proof.
  induction fuel as [|fuel IH]; intros lo e mx txs st;
    destruct ((e >=? lo) && (len txs <? mx)) eqn:C;
    try (rewrite scan_loop_stop by exact C; apply payloads_satisfy_refl).
  - cbn [scan_loop]. rewrite C. apply payloads_satisfy_refl.
  - apply andb_true_iff in C. destruct C as [C1 C2].
    apply Z.geb_le in C1. apply Z.ltb_lt in C2.
    rewrite scan_loop_step by assumption. cbv zeta.
    assert (Hrun : block_run
                     (payloads_of
                        (py_range (Z.max (e - BATCH_SIZE + 1) lo)
                           (e + 1) 1))).
    { exists (Z.max (e - BATCH_SIZE + 1) lo), (e + 1).
      split; [unfold BATCH_SIZE; lia | reflexivity]. }
    pose proof (fetch_payloads block_run _ st Hrun) as Hf.
    destruct (get_block_transactions_batch net _ st) as [[btxs|x|] st1];
      cbn [snd] in Hf.
    + eapply payloads_satisfy_trans; [|apply IH].
      apply payloads_satisfy_after_r; [|reflexivity].
      destruct (filter (involves address) btxs); [exact Hf|].
      apply payloads_satisfy_after_r; [exact Hf | reflexivity].
    + eapply payloads_satisfy_trans; [|apply IH].
      repeat (apply payloads_satisfy_after_r; [|reflexivity]).
      exact Hf.
    + exact Hf.
Qed.

End Requests.

(** X13.  Every POST made by the locator or by the scanner asks for a run
    of consecutive blocks, at least one and at most [BATCH_SIZE] of them,
    whatever the endpoint answers and however long the search runs. *)
Theorem every_request_is_a_bounded_block_run :
  (forall (net : nat -> payload -> exn + response) fuel address lo hi st,
      payloads_satisfy block_run st
        (snd (binary_search_first_transaction net fuel address lo hi st)))
  /\ (forall (net : nat -> payload -> exn + response) fuel address lo hi
             max_transactions st,
        payloads_satisfy block_run st
          (snd (find_transactions_reverse_chronological net fuel address
                  lo hi max_transactions st))).
Proof.
  split.
  - intros net fuel address lo hi st.
    rewrite binary_search_first_transaction_run.
    pose proof (coarse_phase_payloads net address fuel lo hi
                  (after (EPrint MsgBinarySearchStart) st)) as H.
    destruct (coarse_phase_outcome net address fuel lo hi
                (after (EPrint MsgBinarySearchStart) st))
      as [[s' [e' [st' [E Hlt]]]] | [st' E]]; rewrite E in *;
      cbn [snd] in H.
    + rewrite py_range_empty by lia. cbn [fine_phase]. unfold ret.
      cbn [snd]. apply payloads_satisfy_after_r; [|reflexivity].
      eapply payloads_satisfy_after_l; [exact H | reflexivity].
    + cbn [snd]. eapply payloads_satisfy_after_l; [exact H | reflexivity].
  - intros net fuel address lo hi mx st.
    unfold find_transactions_reverse_chronological, bind, print, emit.
    eapply payloads_satisfy_after_l; [apply scan_loop_payloads|].
    reflexivity.
Qed.
